(** * emonë transcriber: a shallow embedding of [transcribe.js]

    The transcriber is "a pair of tangled state machines" written in
    continuation-passing style: the phoneme lexer feeds the glyph aligner,
    which feeds a collector; [embelish] and [measure] then run over the
    collected slots.

    Every JavaScript closure of the source is a constructor of a state type
    here, and applying the closure is a function from that state and its
    argument to the next state.  The continuation [emit] that a state closes
    over is the state of the next machine; the source uses each [emit]
    exactly once on every path, so the nesting below is exact. *)

From Stdlib Require Import List String Ascii ZArith Bool Lia Sorted.
Import ListNotations.

Set Implicit Arguments.

Open Scope string_scope.
Open Scope list_scope.

(** ** Characters

    [for (const character of text)] yields one-code-point strings; the
    terminator handed to the machine after the loop is [null].  A character
    is therefore an [option string]. *)

Definition Char := option string.

Definition null : Char := None.
Definition LF  : string := String (ascii_of_nat 10) "".
Definition CR  : string := String (ascii_of_nat 13) "".
Definition TAB : string := String (ascii_of_nat 9) "".

(** [for (const character of text)] for a text of 8-bit characters. *)
Fixpoint chars (text : string) : list string :=
  match text with
  | EmptyString => []
  | String a rest => String a "" :: chars rest
  end.

(** [switch (c) { case l1: case l2: ... }]: strict equality with one of the
    labels; [null] equals no string label. *)
Definition among (c : Char) (labels : list string) : bool :=
  match c with
  | Some s => existsb (String.eqb s) labels
  | None => false
  end.

Definition isnull (c : Char) : bool :=
  match c with None => true | Some _ => false end.

(** The string a character contributes to a concatenation ([s + c]). *)
Definition str (c : Char) : string :=
  match c with Some s => s | None => "null" end.

(** ** Phonemes: the objects [{type: ..., ...}] the lexer emits. *)

Inductive Phoneme : Type :=
| Consonant (consonant : string)
| Vowel (vowel : string)
| Diphthong (first second : string)
| SpacePh
| Newline
| Error (error : string).

(** ** Continuations

    [emit(v)] returns the continuation to use next; [emit(null)] ends the
    stream.  [feed emit (Some v)] is [emit(v)], [feed emit None] is
    [emit(null)]. *)

Class Sink (A E : Type) : Type := feed : E -> option A -> E.

Notation "e <~ a" := (feed e (Some a)) (at level 40, left associativity).

Definition close {A E} `{Sink A E} (e : E) : E := feed e (@None A).

(** A sink that only records what it is fed, in order. *)
#[global] Instance recorder (A : Type) : Sink A (list (option A)) :=
  fun log a => log ++ [a].

(** Feeding a whole sequence of events. *)
Definition feed_all {A E} `{Sink A E} (e : E) (evs : list (option A)) : E :=
  fold_left feed evs e.

(** ** The phoneme lexer *)

Section Lexer.
Context {E : Type} `{Sink Phoneme E}.

  (** One constructor per closure of the source. *)
Inductive Lexer : Type :=
  | FavorVowel (emit : E)
  | FavorConsonant (emit : E)
  | AfterQ (emit : E)                       (* case 'q': (second) => ... *)
  | AfterGK (emit : E) (first : string)     (* case 'g': case 'k': *)
  | AfterC (emit : E) (first : string)
  | AfterN (emit : E) (first : string)
  | AfterB (emit : E) (first : string)
  | AfterP (emit : E) (first : string)
  | AfterT (emit : E) (first : string)
  | AfterD (emit : E) (first : string)
  | AfterS (emit : E)
  | AfterSC (emit : E)                      (* case 'c': (third) => ... *)
  | MaybeDiphthong (emit : E) (first : string)
  | Space (emit : E).

Section Closures.
    (** [apply s c] is the call [s(c)] of a closure obtained at run time;
        it is [None] when the evaluation budget of [call] below is spent. *)
Variable apply : Lexer -> Char -> option Lexer.

Definition favorConsonant (emit : E) (first : Char) : option Lexer :=
      if isnull first then Some (FavorConsonant (close emit))
      else if among first [LF; CR] then Some (Space (emit <~ Newline))
      else if among first [" "] then Some (Space (emit <~ SpacePh))
      else if among first ["x"] then
        match apply (FavorConsonant emit) (Some "k") with
        | Some k => apply k (Some "s")
        | None => None
        end
      else if among first ["q"] then Some (AfterQ emit)
      else if among first ["w"; "y"] then
        Some (FavorVowel (emit <~ Consonant (str first)))
      else if among first ["e"; "i"; "y"; "a"; "o"; "u"] then
        Some (MaybeDiphthong emit (str first))
      else if among first ["r"; "l"; "m"; "v"; "f"; "j"; "z"] then
        Some (FavorVowel (emit <~ Consonant (str first)))
      else if among first ["g"; "k"] then Some (AfterGK emit (str first))
      else if among first ["c"] then Some (AfterC emit (str first))
      else if among first ["n"] then Some (AfterN emit (str first))
      else if among first ["b"] then Some (AfterB emit (str first))
      else if among first ["p"] then Some (AfterP emit (str first))
      else if among first ["t"] then Some (AfterT emit (str first))
      else if among first ["d"] then Some (AfterD emit (str first))
      else if among first ["s"] then Some (AfterS emit)
      else Some (FavorVowel (emit <~ Error ("unexpected " ++ str first)%string)).

    (** treat w and y as vowels after scanning a consonant. *)
Definition favorVowel (emit : E) (letter : Char) : option Lexer :=
      if among letter ["w"; "y"] then Some (MaybeDiphthong emit (str letter))
      else favorConsonant emit letter.

Definition afterQ (emit : E) (second : Char) : option Lexer :=
      match apply (FavorConsonant emit) (Some "k") with
      | Some k =>
          match apply k (Some "w") with
          | Some next =>
              if negb (among second ["u"]) && negb (among second ["w"])
              then apply next second
              else Some next
          | None => None
          end
      | None => None
      end.

Definition afterGK (emit : E) (first : string) (second : Char) :=
      if among second ["h"] then
        Some (FavorVowel (emit <~ Consonant (first ++ str second)%string))
      else favorVowel (emit <~ Consonant first) second.

Definition afterC (emit : E) (first : string) (second : Char) :=
      if among second ["h"] then
        Some (FavorVowel (emit <~ Consonant (first ++ str second)%string))
      else favorVowel (emit <~ Consonant "k") second.

Definition afterN (emit : E) (first : string) (second : Char) :=
      if among second ["g"] then
        Some (FavorVowel (emit <~ Consonant (first ++ str second)%string))
      else favorVowel (emit <~ Consonant first) second.

Definition afterB (emit : E) (first : string) (second : Char) :=
      if among second ["h"] then Some (FavorVowel (emit <~ Consonant "v"))
      else favorVowel (emit <~ Consonant first) second.

Definition afterP (emit : E) (first : string) (second : Char) :=
      if among second ["h"] then Some (FavorVowel (emit <~ Consonant "f"))
      else favorVowel (emit <~ Consonant first) second.

Definition afterT (emit : E) (first : string) (second : Char) :=
      if among second ["h"; "s"] then
        Some (FavorVowel (emit <~ Consonant (first ++ str second)%string))
      else favorVowel (emit <~ Consonant first) second.

Definition afterD (emit : E) (first : string) (second : Char) :=
      if among second ["h"; "j"; "z"] then
        Some (FavorVowel (emit <~ Consonant (first ++ str second)%string))
      else favorVowel (emit <~ Consonant first) second.

Definition afterSC (emit : E) (third : Char) : option Lexer :=
      if among third ["h"] then Some (FavorVowel (emit <~ Consonant "sh"))
      else favorVowel (emit <~ Consonant "s" <~ Consonant "k") third.

Definition afterS (emit : E) (second : Char) : option Lexer :=
      if among second ["c"] then Some (AfterSC emit)
      else favorVowel (emit <~ Consonant "s") second.

Definition maybeDiphthong (emit : E) (first : string) (second : Char)
      : option Lexer :=
      if isnull second then Some (FavorConsonant (close (emit <~ Vowel first)))
      else if among second [" "] then Some (Space (emit <~ Vowel first <~ SpacePh))
      else if among second ["e"; "i"; "y"; "a"; "o"; "u"; "w"] then
        Some (FavorConsonant (emit <~ Diphthong first (str second)))
      else favorConsonant (emit <~ Vowel first) second.

Definition space (emit : E) (letter : Char) : option Lexer :=
      if among letter [" "; LF; CR; TAB] then Some (Space emit)
      else favorConsonant emit letter.

    (** Calling a closure: each one runs its own body. *)
Definition dispatch (state : Lexer) (character : Char) : option Lexer :=
      match state with
      | FavorVowel emit => favorVowel emit character
      | FavorConsonant emit => favorConsonant emit character
      | AfterQ emit => afterQ emit character
      | AfterGK emit first => afterGK emit first character
      | AfterC emit first => afterC emit first character
      | AfterN emit first => afterN emit first character
      | AfterB emit first => afterB emit first character
      | AfterP emit first => afterP emit first character
      | AfterT emit first => afterT emit first character
      | AfterD emit first => afterD emit first character
      | AfterS emit => afterS emit character
      | AfterSC emit => afterSC emit character
      | MaybeDiphthong emit first => maybeDiphthong emit first character
      | Space emit => space emit character
      end.
End Closures.

  (** [call fuel s c] evaluates the call [s(c)].  The only calls of a
      closure that is not known statically are those of ['x'] and ['q'];
      they nest three deep at most: [call_enough] shows that the budget of
      [lex] is never spent, [call_stable] that a larger one changes nothing,
      and [lex_dispatch] that [lex] solves the recursive equations of the
      source. *)
Fixpoint call (fuel : nat) (state : Lexer) (character : Char)
    : option Lexer :=
    match fuel with
    | O => None
    | S fuel => dispatch (call fuel) state character
    end.

  (** The continuation a lexer closure holds. *)
Definition lexer_emit (state : Lexer) : E :=
    match state with
    | FavorVowel emit | FavorConsonant emit | AfterQ emit
    | AfterGK emit _ | AfterC emit _ | AfterN emit _ | AfterB emit _
    | AfterP emit _ | AfterT emit _ | AfterD emit _
    | AfterS emit | AfterSC emit | MaybeDiphthong emit _ | Space emit => emit
    end.

Definition lexer_fuel : nat := 3.

  (** [state(character)] *)
Definition lex (state : Lexer) (character : Char) : Lexer :=
    match call lexer_fuel state character with
    | Some next => next
    | None => state
    end.
End Lexer.

Arguments Lexer E : clear implicits.

(** ** Slots

    A slot is a JavaScript object with the keys [x], [y], [empty], [center],
    [north], [south], [east], [west] and [errors]; every slot the aligner
    builds has numeric [x] and [y], every other key may be absent.  The
    "connectors" are object literals over the keys [empty] ... [west] only. *)

Record Slot : Type := mkSlot {
  x : Z;
  y : Z;
  empty : option bool;
  center : option string;
  north : option string;
  south : option string;
  east : option string;
  west : option string;
  errors : option (list string)
}.

Record Connector : Type := mkConnector {
  cEmpty : option bool;
  cCenter : option string;
  cNorth : option string;
  cSouth : option string;
  cEast : option string;
  cWest : option string
}.

(** [{x: a, y: b}] *)
Definition xy (a b : Z) : Slot :=
  mkSlot a b None None None None None None None.

Definition set_empty (v : bool) (t : Slot) : Slot :=
  mkSlot (x t) (y t) (Some v) (center t) (north t) (south t) (east t) (west t)
         (errors t).
Definition set_center (v : string) (t : Slot) : Slot :=
  mkSlot (x t) (y t) (empty t) (Some v) (north t) (south t) (east t) (west t)
         (errors t).
Definition set_north (v : string) (t : Slot) : Slot :=
  mkSlot (x t) (y t) (empty t) (center t) (Some v) (south t) (east t) (west t)
         (errors t).
Definition set_south (v : string) (t : Slot) : Slot :=
  mkSlot (x t) (y t) (empty t) (center t) (north t) (Some v) (east t) (west t)
         (errors t).
Definition set_east (v : string) (t : Slot) : Slot :=
  mkSlot (x t) (y t) (empty t) (center t) (north t) (south t) (Some v) (west t)
         (errors t).
Definition set_west (v : string) (t : Slot) : Slot :=
  mkSlot (x t) (y t) (empty t) (center t) (north t) (south t) (east t) (Some v)
         (errors t).

(** [{x: a, y: b, empty: e}] *)
Definition blank (a b : Z) (e : bool) : Slot := set_empty e (xy a b).

(** A key of the right operand of a spread wins when it is present. *)
Definition override {A} (new old : option A) : option A :=
  match new with Some _ => new | None => old end.

(** [{...term, ...connector}] *)
Definition spread (term : Slot) (connector : Connector) : Slot :=
  mkSlot (x term) (y term)
         (override (cEmpty connector) (empty term))
         (override (cCenter connector) (center term))
         (override (cNorth connector) (north term))
         (override (cSouth connector) (south term))
         (override (cEast connector) (east term))
         (override (cWest connector) (west term))
         (errors term).

(** The connector literals of the source. *)
Definition nothing : Connector :=                      (* {} *)
  mkConnector None None None None None None.
Definition centered (c : string) : Connector :=        (* {empty: false, center: c} *)
  mkConnector (Some false) (Some c) None None None None.
Definition northward (v : string) : Connector :=       (* {empty: false, north: v} *)
  mkConnector (Some false) None (Some v) None None None.
Definition southward (v : string) : Connector :=       (* {empty: false, south: v} *)
  mkConnector (Some false) None None (Some v) None None.
Definition eastward (v : string) : Connector :=        (* {empty: false, east: v} *)
  mkConnector (Some false) None None None (Some v) None.
Definition westward (v : string) : Connector :=        (* {empty: false, west: v} *)
  mkConnector (Some false) None None None None (Some v).

(** [term.errors || []] *)
Definition errors_of (term : Slot) : list string :=
  match errors term with Some l => l | None => [] end.

Definition appendError (term : Slot) (error : string) : Slot :=
  mkSlot (x term) (y term) (empty term) (center term) (north term)
         (south term) (east term) (west term)
         (Some (errors_of term ++ [error])).

(** Truthiness of an optional string: absent and [""] are falsy. *)
Definition truthy (v : option string) : bool :=
  match v with
  | Some s => negb (s =? "")%string
  | None => false
  end.

(** ** The glyph aligner *)

Section Aligner.
Context {E : Type} `{Sink Slot E}.
Local Open Scope Z_scope.

Inductive Aligner : Type :=
  | BeforeHigh (term : Slot) (emit : E)
  | High (term : Slot) (vowelConnector consonantConnector : Connector)
         (emit : E)
  | AfterHigh (term : Slot)
              (firstVowelConnector secondVowelConnector : Connector)
              (emit : E)
  | Low (term : Slot) (vowelConnector consonantConnector : Connector)
        (emit : E)
  | AfterLow (term : Slot)
             (firstVowelConnector secondVowelConnector : Connector)
             (emit : E)
  | AlignerEnd (emit : E).

Definition alignerEnd (emit : E) (phoneme : option Phoneme) : Aligner :=
    (* wat? *)
    AlignerEnd (close emit).

Definition beforeHigh (term : Slot) (emit : E) (phoneme : option Phoneme)
    : Aligner :=
    match phoneme with
    | None => AlignerEnd (close (emit <~ term))
    | Some (Vowel vowel) =>
        High (set_north vowel (set_empty false term))
             nothing
             (centered "m")
             emit
    | Some (Diphthong first second) =>
        Low (set_north second (blank (x term) (y term + 1) false))
            nothing
            (centered "m")
            (emit <~ set_south first (set_empty false term))
    | Some (Consonant consonant) =>
        AfterHigh (set_center consonant (set_empty false term))
                  (southward "e")
                  (northward "e")
                  emit
    | Some SpacePh => BeforeHigh term emit
    | Some Newline => BeforeHigh (blank 0 (y term + 2) true) (emit <~ term)
    | Some (Error error) => BeforeHigh (appendError term error) emit
    end.

Definition high (term : Slot) (vowelConnector consonantConnector : Connector)
             (emit : E) (phoneme : option Phoneme) : Aligner :=
    match phoneme with
    | None => AlignerEnd (close (emit <~ term))
    | Some (Vowel vowel) =>
        Low (blank (x term) (y term + 1) true)
            (northward vowel)
            (centered "m")
            (emit <~ set_south vowel
                       (set_empty false (spread term consonantConnector)))
    | Some (Diphthong first second) =>
        Low (set_north second (blank (x term) (y term + 1) false))
            nothing
            (centered "m")
            (emit <~ set_south first
                       (set_empty false (spread term consonantConnector)))
    | Some (Consonant consonant) =>
        AfterHigh (set_center consonant
                     (set_empty false (spread term vowelConnector)))
                  (southward "e")
                  (northward "e")
                  emit
    | Some SpacePh =>
        if truthy (west term) || truthy (north term) then
          (* If the previous word ended with a diphthong,
             land on a trailing consonant connector
             and begin the next word one column over. *)
          BeforeHigh (blank (x term + 1) (y term) true)
                     (emit <~ set_center "m" (set_empty false term))
        else
          (* Otherwise, just ditch the consonant and vowel connectors. *)
          BeforeHigh term emit
    | Some Newline =>
        if truthy (west term) then
          BeforeHigh (blank 0 (y term + 2) true)
                     (emit <~ set_center "m" (set_empty false term))
        else
          BeforeHigh (blank 0 (y term + 2) true) (emit <~ term)
    | Some (Error error) =>
        High (appendError term error) vowelConnector consonantConnector emit
    end.

Definition afterHigh (term : Slot)
             (firstVowelConnector secondVowelConnector : Connector)
             (emit : E) (phoneme : option Phoneme) : Aligner :=
    match phoneme with
    | None => AlignerEnd (close (emit <~ term))
    | Some (Vowel vowel) =>
        Low (blank (x term) (y term + 1) true)
            (northward vowel)
            (centered "m")
            (emit <~ set_south vowel (set_empty false term))
    | Some (Diphthong first second) =>
        Low (set_north second (blank (x term) (y term + 1) false))
            nothing
            (centered "m")
            (emit <~ set_south first (set_empty false term))
    | Some (Consonant consonant) =>
        AfterLow (set_center consonant
                    (set_empty false
                       (spread (xy (x term) (y term + 1))
                               secondVowelConnector)))
                 (eastward "e")
                 (westward "e")
                 (emit <~ spread term firstVowelConnector)
    | Some SpacePh =>
        BeforeHigh (blank (x term + 1) (y term) true) (emit <~ term)
    | Some Newline =>
        BeforeHigh (blank 0 (y term + 2) true) (emit <~ term)
    | Some (Error error) =>
        AfterHigh (appendError term error)
                  firstVowelConnector secondVowelConnector emit
    end.

Definition low (term : Slot) (vowelConnector consonantConnector : Connector)
             (emit : E) (phoneme : option Phoneme) : Aligner :=
    match phoneme with
    | None => AlignerEnd (close (emit <~ term))
    | Some (Vowel vowel) =>
        High (blank (x term + 1) (y term - 1) true)
             (westward vowel)
             (centered "m")
             (emit <~ set_east vowel
                        (set_empty false (spread term consonantConnector)))
    | Some (Diphthong first second) =>
        High (set_west second (blank (x term + 1) (y term - 1) false))
             nothing
             (centered "m")
             (emit <~ set_east first
                        (set_empty false (spread term consonantConnector)))
    | Some (Consonant consonant) =>
        AfterLow (set_center consonant
                    (set_empty false (spread term vowelConnector)))
                 (eastward "e")
                 (westward "e")
                 emit
    | Some SpacePh => AfterLow term nothing nothing emit
    | Some Newline =>
        BeforeHigh (blank 0 (y term + 1) true) (emit <~ term)
    | Some (Error error) =>
        Low (appendError term error) vowelConnector consonantConnector emit
    end.

Definition afterLow (term : Slot)
             (firstVowelConnector secondVowelConnector : Connector)
             (emit : E) (phoneme : option Phoneme) : Aligner :=
    match phoneme with
    | None => alignerEnd (emit <~ term) None
    | Some (Vowel vowel) =>
        High (blank (x term + 1) (y term - 1) true)
             (westward vowel)
             (centered "m")
             (emit <~ set_east vowel (set_empty false term))
    | Some (Diphthong first second) =>
        High (set_west second (blank (x term + 1) (y term - 1) false))
             nothing
             (centered "m")
             (emit <~ set_east first (set_empty false term))
    | Some (Consonant consonant) =>
        AfterHigh (set_center consonant
                     (set_empty false
                        (spread (xy (x term + 1) (y term - 1))
                                secondVowelConnector)))
                  (southward "e")
                  (northward "e")
                  (emit <~ spread term firstVowelConnector)
    | Some SpacePh =>
        High (blank (x term + 1) (y term - 1) true) nothing nothing
             (emit <~ term)
    | Some Newline =>
        BeforeHigh (blank 0 (y term + 1) true) (emit <~ term)
    | Some (Error error) =>
        AfterLow (appendError term error)
                 firstVowelConnector secondVowelConnector emit
    end.

  (** Calling an aligner closure with a phoneme. *)
#[global] Instance align : Sink Phoneme Aligner := fun state phoneme =>
    match state with
    | BeforeHigh term emit => beforeHigh term emit phoneme
    | High term v c emit => high term v c emit phoneme
    | AfterHigh term v1 v2 emit => afterHigh term v1 v2 emit phoneme
    | Low term v c emit => low term v c emit phoneme
    | AfterLow term v1 v2 emit => afterLow term v1 v2 emit phoneme
    | AlignerEnd emit => alignerEnd emit phoneme
    end.

Definition aligner (emit : E) : Aligner :=
    BeforeHigh (blank 0 0 true) emit.

  (** The continuation an aligner closure holds. *)
Definition aligner_emit (state : Aligner) : E :=
    match state with
    | BeforeHigh _ emit | High _ _ _ emit | AfterHigh _ _ _ emit
    | Low _ _ _ emit | AfterLow _ _ _ emit | AlignerEnd emit => emit
    end.

  (** The slot a live aligner state is filling. *)
Definition open_slot (state : Aligner) : option Slot :=
    match state with
    | BeforeHigh term _ | High term _ _ _ | AfterHigh term _ _ _
    | Low term _ _ _ | AfterLow term _ _ _ => Some term
    | AlignerEnd _ => None
    end.
End Aligner.

Arguments Aligner E : clear implicits.

(** ** The collector and the parser

    [makeParser] keeps the outcome in the variable [result], which only the
    callback [cb] writes; [cb] returns [eof].  The store travels with the
    collector closure, the only closure that can reach [cb]. *)

Inductive CollectorFn : Type :=
| Collect (head : list Slot)     (* collector(head, cb) *)
| EofFn.                         (* eof *)

Record Collector : Type := mkCollector {
  continue : CollectorFn;
  result : list Slot
}.

#[global] Instance collector : Sink Slot Collector := fun c tail =>
  match continue c, tail with
  | Collect head, None => mkCollector EofFn head          (* cb(head) *)
  | Collect head, Some tail => mkCollector (Collect (head ++ [tail])) (result c)
  | EofFn, _ => c
  end.

(** [start(cb)], with [result = []] in the store. *)
Definition start : Lexer (Aligner Collector) :=
  FavorConsonant (aligner (mkCollector (Collect []) [])).

(** [for (const character of text) state = state(character)] *)
Definition run {E} `{Sink Phoneme E} (state : Lexer E) (text : list string)
  : Lexer E :=
  fold_left (fun state character => lex state (Some character)) text state.

(** [parse = makeParser(start)] *)
Definition parse (text : list string) : list Slot :=
  let state := run start text in
  let state := lex state null in
  result (aligner_emit (lexer_emit state)).

(** ** Glyphs

    [embelish] adds keys to the slot objects: the feature names of the
    consonant table and the stroke names of the vowels, every one with the
    value [true].  None of those names is a slot key, so a glyph is a slot
    together with the names added to it, in insertion order. *)

Record Glyph : Type := mkGlyph {
  slot : Slot;
  strokes : list string
}.

Definition of_slot (s : Slot) : Glyph := mkGlyph s [].

(** [glyph[name]] for a stroke or feature name. *)
Definition has (name : string) (glyph : Glyph) : bool :=
  existsb (String.eqb name) (strokes glyph).

(** [{...glyph, [name]: true}] *)
Definition add (name : string) (glyph : Glyph) : Glyph :=
  if has name glyph then glyph
  else mkGlyph (slot glyph) (strokes glyph ++ [name]).

(** [{...glyph, ...features}] *)
Definition add_all (features : list string) (glyph : Glyph) : Glyph :=
  fold_left (fun g name => add name g) features glyph.

(** How to construct a glyph for each consonant, using the names of strokes
    (inkscape layer labels). *)
Definition consonantGlyphs : list (string * list string) :=
  [ ("l",  ["l"]);
    ("r",  ["r"]);
    ("w",  ["consonantal-w"]);
    ("y",  ["consonantal-y"]);

    ("m",  ["labial"]);
    ("b",  ["labial"; "plosive"]);
    ("p",  ["labial"; "plosive"; "plosive-unvoiced"]);
    ("v",  ["labial"; "fricative"]);
    ("f",  ["labial"; "fricative"; "fricative-unvoiced"]);

    ("n",  ["labial"; "dental"]);
    ("d",  ["labial"; "dental"; "plosive"]);
    ("t",  ["labial"; "dental"; "plosive"; "plosive-unvoiced"]);
    ("dh", ["labial"; "dental"; "fricative"]);
    ("th", ["labial"; "dental"; "fricative"; "fricative-unvoiced"]);

    ("ng", ["labial"; "palatal"]);
    ("g",  ["labial"; "palatal"; "plosive"]);
    ("k",  ["labial"; "palatal"; "plosive"; "plosive-unvoiced"]);
    ("gh", ["labial"; "palatal"; "fricative"]);
    ("kh", ["labial"; "palatal"; "fricative"; "fricative-unvoiced"]);

    ("dz", ["labial"; "dental"; "dental-alveolar"; "plosive"]);
    ("ts", ["labial"; "dental"; "dental-alveolar"; "plosive";
            "plosive-unvoiced"]);
    ("z",  ["labial"; "dental"; "dental-alveolar"; "fricative"]);
    ("s",  ["labial"; "dental"; "dental-alveolar"; "fricative";
            "fricative-unvoiced"]);

    ("dj", ["labial"; "palatal"; "palatal-alveolar"; "plosive"]);
    ("ch", ["labial"; "palatal"; "palatal-alveolar"; "plosive";
            "plosive-unvoiced"]);
    ("j",  ["labial"; "palatal"; "palatal-alveolar"; "fricative"]);
    ("sh", ["labial"; "palatal"; "palatal-alveolar"; "fricative";
            "fricative-unvoiced"]) ].

(** A list of current SVG labels. *)
Definition vowelGlyphs : list string :=
  [ "e-west-outer"; "e-west-inner";
    "e-east-outer-inner"; "e-east-outer-outer"; "e-east-outer";
    "e-east-inner-outer"; "e-east-inner-inner"; "e-east-inner";
    "e-south-outer-outer"; "e-south-outer";
    "e-south-inner-inner"; "e-south-inner";
    "e-north-outer-outer"; "e-north-inner-inner";
    "e-north-outer"; "e-north-inner";
    "i-west-outer"; "i-west-inner";
    "i-east-outer-outer"; "i-east-outer-inner"; "i-east-outer";
    "i-east-inner-outer"; "i-east-inner-inner"; "i-east-inner";
    "i-south-outer-outer"; "i-south-outer-inner"; "i-south-outer";
    "i-south-inner"; "i-south-inner-outer"; "i-south-inner-inner";
    "i-north-outer"; "i-north-inner";
    "y-west-outer"; "y-west-inner";
    "y-east-outer-outer"; "y-east-outer-inner"; "y-east-outer";
    "y-east-inner-inner"; "y-east-inner-outer"; "y-east-inner";
    "y-south-outer-outer"; "y-south-outer"; "y-south-inner";
    "y-north-outer-outer"; "y-north-outer"; "y-north-inner";
    "a-west-outer"; "a-west-inner";
    "a-east-outer-outer"; "a-east-outer";
    "a-east-inner-inner"; "a-east-inner";
    "a-south-outer-outer"; "a-south-outer"; "a-south-inner";
    "a-north-outer-outer"; "a-north-outer"; "a-north-inner";
    "o-west-outer"; "o-west-inner";
    "o-east-outer-outer"; "o-east-outer"; "o-east-inner";
    "o-south-outer"; "o-south-inner";
    "o-north-outer"; "o-north-inner";
    "u-west-outer"; "u-west-inner";
    "u-east-outer-outer"; "u-east-outer";
    "u-east-inner-inner"; "u-east-inner";
    "u-south-outer-outer"; "u-south-outer"; "u-south-inner";
    "u-north-outer-outer"; "u-north-outer"; "u-north-inner";
    "w-west-outer"; "w-west-inner";
    "w-east-outer-outer"; "w-east-outer"; "w-east-inner";
    "w-south-outer"; "w-south-inner";
    "w-north-outer"; "w-north-inner" ].

(** [consonantGlyphs[center] || {}]; an absent [center] looks up the key
    ["undefined"], which the table does not have. *)
Definition features (center : option string) : list string :=
  match center with
  | Some c =>
      match find (fun entry => (fst entry =? c)%string) consonantGlyphs with
      | Some entry => snd entry
      | None => []
      end
  | None => []
  end.

(** [vowelGlyphs[name]] *)
Definition known (name : string) : bool :=
  existsb (String.eqb name) vowelGlyphs.

(** The string of an attachment in a concatenation. *)
Definition text_of (v : option string) : string :=
  match v with Some s => s | None => "undefined" end.

(** [a === b] on attachments. *)
Definition same (a b : option string) : bool :=
  match a, b with
  | Some s, Some t => (s =? t)%string
  | None, None => true
  | _, _ => false
  end.

(** [io], on a glyph or on the empty object [{}] (here [None]) that stands
    in for a missing neighbour. *)
Definition io (glyph : option Glyph) : string * string :=
  match glyph with
  | Some g => (if has "dental" g then "outer" else "inner",
               if has "palatal" g then "outer" else "inner")
  | None => ("inner", "inner")
  end.

(** [next.west], [next.north], [delete next.west], [delete next.north] *)
Definition next_west (next : option Glyph) : option string :=
  match next with Some n => west (slot n) | None => None end.
Definition next_north (next : option Glyph) : option string :=
  match next with Some n => north (slot n) | None => None end.

Definition delete_west (g : Glyph) : Glyph :=
  let t := slot g in
  mkGlyph (mkSlot (x t) (y t) (empty t) (center t) (north t) (south t)
                  (east t) None (errors t))
          (strokes g).
Definition delete_north (g : Glyph) : Glyph :=
  let t := slot g in
  mkGlyph (mkSlot (x t) (y t) (empty t) (center t) None (south t)
                  (east t) (west t) (errors t))
          (strokes g).

(** The body of the second [map] of [embelish], for the glyph at index [i]
    and the object at index [i+1]; it returns the new glyph and the
    neighbour, which it may have mutated. *)
Definition name_strokes (glyph : Glyph) (next : option Glyph)
  : Glyph * option Glyph :=
  let '(left_, right_) := io (Some glyph) in
  let '(nextLeft, nextRight) := io next in
  let g0 := slot glyph in
  let glyph :=
    if truthy (west g0)
    then add (text_of (west g0) ++ "-west-" ++ left_)%string glyph
    else glyph in
  let glyph :=
    if truthy (north g0)
    then add (text_of (north g0) ++ "-north-" ++ left_)%string glyph
    else glyph in
  let '(glyph, next) :=
    if truthy (east g0) then
      let name := (text_of (east g0) ++ "-east-" ++ right_)%string in
      let longName :=
        (text_of (east g0) ++ "-east-" ++ right_ ++ "-" ++ nextLeft)%string in
      if same (east g0) (next_west next) && known longName
      then (add longName glyph, option_map delete_west next)
      else (add name glyph, next)
    else (glyph, next) in
  let '(glyph, next) :=
    if truthy (south g0) then
      let name := (text_of (south g0) ++ "-south-" ++ right_)%string in
      let longName :=
        (text_of (south g0) ++ "-south-" ++ right_ ++ "-" ++ nextLeft)%string in
      if same (south g0) (next_north next) && known longName
      then (add longName glyph, option_map delete_north next)
      else (add name glyph, next)
    else (glyph, next) in
  (glyph, next).

(** The second [map], left to right: [glyph] is the element at the current
    index, with whatever the previous step deleted from it. *)
Fixpoint name_from (glyph : Glyph) (rest : list Glyph) : list Glyph :=
  match rest with
  | [] => [fst (name_strokes glyph None)]
  | next :: rest =>
      let '(glyph, mutated) := name_strokes glyph (Some next) in
      glyph :: name_from (match mutated with Some n => n | None => next end)
                         rest
  end.

Definition name_all (glyphs : list Glyph) : list Glyph :=
  match glyphs with
  | [] => []
  | glyph :: rest => name_from glyph rest
  end.

(** [!empty] *)
Definition is_empty (glyph : Glyph) : bool :=
  match empty (slot glyph) with Some b => b | None => false end.

(** embelish receives an entire glyph model, removes the empty slots, and
    translates directives like "e from west" into the corresponding label
    names for strokes in the SVG file. *)
Definition embelish (glyphs : list Glyph) : list Glyph :=
  name_all
    (map (fun glyph => add_all (features (center (slot glyph))) glyph)
         (filter (fun glyph => negb (is_empty glyph)) glyphs)).

Record Size : Type := mkSize { size_x : Z; size_y : Z }.

Definition measure (glyphs : list Glyph) : Size :=
  mkSize
    (fold_left (fun max g => Z.max (x (slot g) + 1) max) glyphs 1%Z)
    (fold_left (fun max g => Z.max (y (slot g) + 1) max) glyphs 1%Z).

Record GlyphModel : Type := mkModel { glyphs : list Glyph; size : Size }.

Definition transcribe (text : list string) : GlyphModel :=
  let glyphs := embelish (map of_slot (parse text)) in
  let size := measure glyphs in
  mkModel glyphs size.


(** * Vocabulary of the properties *)

(** ** Changing the continuation of a lexer closure *)

Section LexerMapDef.
Context {E E' : Type}.
Variable g : E -> E'.

Definition lmap (state : Lexer E) : Lexer E' :=
    match state with
    | FavorVowel emit => FavorVowel (g emit)
    | FavorConsonant emit => FavorConsonant (g emit)
    | AfterQ emit => AfterQ (g emit)
    | AfterGK emit first => AfterGK (g emit) first
    | AfterC emit first => AfterC (g emit) first
    | AfterN emit first => AfterN (g emit) first
    | AfterB emit first => AfterB (g emit) first
    | AfterP emit first => AfterP (g emit) first
    | AfterT emit first => AfterT (g emit) first
    | AfterD emit first => AfterD (g emit) first
    | AfterS emit => AfterS (g emit)
    | AfterSC emit => AfterSC (g emit)
    | MaybeDiphthong emit first => MaybeDiphthong (g emit) first
    | Space emit => Space (g emit)
    end.
End LexerMapDef.

(** ** What the lexer emits *)

(** The letters the lexer can put in a vowel or diphthong phoneme. *)
Definition vowel_symbols : list string := ["e"; "i"; "y"; "a"; "o"; "u"; "w"].

Definition lexable (p : Phoneme) : Prop :=
  match p with
  | Vowel v => In v vowel_symbols
  | Diphthong a b => In a vowel_symbols /\ In b vowel_symbols
  | Error e => exists c, e = ("unexpected " ++ c)%string
  | _ => True
  end.

(** The end marker is passed on exactly when the character is [null]. *)
Definition ending (c : Char) : list (option Phoneme) :=
  if isnull c then [None] else [].

Section LexerEmitsDef.
Context {E : Type} `{Sink Phoneme E}.

  (** The vowel a [maybeDiphthong] closure holds is a vowel symbol. *)
Definition pending (state : Lexer E) : Prop :=
    match state with
    | MaybeDiphthong _ first => In first vowel_symbols
    | _ => True
    end.

  (** [r] is reached from a closure over [emit] on character [c] by
      emitting lexable phonemes, then the end marker if [c] is [null]. *)
Definition emits (emit : E) (c : Char) (r : Lexer E) : Prop :=
    exists phs,
      lexer_emit r = feed_all emit (map Some phs ++ ending c)
      /\ Forall lexable phs /\ pending r.
End LexerEmitsDef.

(** ** Changing the continuation of an aligner closure *)

Section AlignerMapDef.
Context {E E' : Type}.
Variable g : E -> E'.

Definition amap (state : Aligner E) : Aligner E' :=
  match state with
  | BeforeHigh term emit => BeforeHigh term (g emit)
  | High term v c emit => High term v c (g emit)
  | AfterHigh term v1 v2 emit => AfterHigh term v1 v2 (g emit)
  | Low term v c emit => Low term v c (g emit)
  | AfterLow term v1 v2 emit => AfterLow term v1 v2 (g emit)
  | AlignerEnd emit => AlignerEnd (g emit)
  end.
End AlignerMapDef.

(** ** The three stages, observed one at a time *)

(** The values of a stream, without its end markers. *)
Definition somes {A} (l : list (option A)) : list A :=
  flat_map (fun o => match o with Some a => [a] | None => [] end) l.

(** Everything the lexer emits on a text, end marker included: the lexer
    run against the recording continuation. *)
Definition lexed (text : list string) : list (option Phoneme) :=
  lexer_emit (lex (run (FavorConsonant (@nil (option Phoneme))) text) null).

(** The phonemes of a text. *)
Definition phonemes (text : list string) : list Phoneme := somes (lexed text).

(** Everything the aligner emits on a stream of phonemes. *)
Definition aligned (phs : list (option Phoneme)) : list (option Slot) :=
  aligner_emit (feed_all (aligner (@nil (option Slot))) phs).

(** What one call of an aligner closure emits. *)
Definition output {E} (state : Aligner E) (phoneme : option Phoneme)
  : list (option Slot) :=
  aligner_emit (feed (amap (fun _ => @nil (option Slot)) state) phoneme).

(** The collector before anything is collected, with [result = []]. *)
Definition collector0 : Collector := mkCollector (Collect []) [].

(** The aligner closure is one of the five states of the zig-zag. *)
Definition live {E} (state : Aligner E) : Prop :=
  match state with AlignerEnd _ => False | _ => True end.

(** The Low states: [low] and [afterLow]. *)
Definition is_low {E} (state : Aligner E) : bool :=
  match state with Low _ _ _ _ | AfterLow _ _ _ _ => true | _ => false end.

(** ** Extent of a glyph sequence, as the specification words it *)

(** [v] is the largest [coord + 1] over the glyphs, and 1 at least. *)
Definition is_extent (coord : Slot -> Z) (gs : list Glyph) (v : Z) : Prop :=
  (1 <= v)%Z
  /\ (forall g, In g gs -> (coord (slot g) + 1 <= v)%Z)
  /\ (v = 1%Z \/ exists g, In g gs /\ v = (coord (slot g) + 1)%Z).

(** ** Rows and columns of the zig-zag *)

(** High states sit on a row [y >= 0]; Low states sit one row below a high
    row, so on a row [y >= 1]. *)
Definition grounded {E} (state : Aligner E) : Prop :=
  match state with
  | BeforeHigh t _ | High t _ _ _ | AfterHigh t _ _ _ =>
      (0 <= x t /\ 0 <= y t)%Z
  | Low t _ _ _ | AfterLow t _ _ _ => (0 <= x t /\ 1 <= y t)%Z
  | AlignerEnd _ => True
  end.

Definition on_grid (s : Slot) : Prop := (0 <= x s /\ 0 <= y s)%Z.

(** Position of a glyph. *)
Definition coords (g : Glyph) : Z * Z := (x (slot g), y (slot g)).

(** ** Word boundaries *)

(** The hub carries a west or north attachment. *)
Definition stranded (term : Slot) : bool :=
  truthy (west term) || truthy (north term).

(** The states in which a space moves the open slot one column on at
    once. *)
Definition space_advances {E} (state : Aligner E) : bool :=
  match state with
  | High term _ _ _ => stranded term
  | AfterHigh _ _ _ _ | AfterLow _ _ _ _ => true
  | BeforeHigh _ _ | Low _ _ _ _ | AlignerEnd _ => false
  end.

(** ** Error messages *)

(** The messages of the error phonemes, in order. *)
Definition errors_in (phs : list Phoneme) : list string :=
  flat_map (fun p => match p with Error e => [e] | _ => [] end) phs.

(** ** Unexpected characters *)

(** The labels of the [switch] of [favorConsonant], case by case. *)
Definition favorConsonant_labels : list string :=
  [LF; CR] ++ [" "] ++ ["x"] ++ ["q"] ++ ["w"; "y"]
  ++ ["e"; "i"; "y"; "a"; "o"; "u"]
  ++ ["r"; "l"; "m"; "v"; "f"; "j"; "z"]
  ++ ["g"; "k"] ++ ["c"] ++ ["n"] ++ ["b"] ++ ["p"] ++ ["t"] ++ ["d"]
  ++ ["s"].

(** The character reaches the last line of [favorConsonant]: it is not
    [null] and no label matches it. *)
Definition unexpected (c : Char) : bool :=
  negb (isnull c) && negb (among c favorConsonant_labels).

(** The character matches a label, or the test, of the closure's own
    body, so that the closure does not pass it on to [favorConsonant]. *)
Definition absorbs {E} (state : Lexer E) (c : Char) : bool :=
  match state with
  | FavorConsonant _ => false
  | FavorVowel _ => among c ["w"; "y"]
  | AfterQ _ => among c ["u"] || among c ["w"]
  | AfterGK _ _ | AfterC _ _ | AfterB _ _ | AfterP _ _ | AfterSC _ =>
      among c ["h"]
  | AfterN _ _ => among c ["g"]
  | AfterT _ _ => among c ["h"; "s"]
  | AfterD _ _ => among c ["h"; "j"; "z"]
  | AfterS _ => among c ["c"]
  | MaybeDiphthong _ _ =>
      isnull c || among c [" "]
      || among c ["e"; "i"; "y"; "a"; "o"; "u"; "w"]
  | Space _ => among c [" "; LF; CR; TAB]
  end.

(** The character matches no rule in this state of the lexer. *)
Definition unmatched {E} (state : Lexer E) (c : Char) : bool :=
  unexpected c && negb (absorbs state c).

(** The message of the error phoneme for a character. *)
Definition complaint (c : Char) : string := ("unexpected " ++ str c)%string.

(** The characters of a text that match no rule in the state in which the
    lexer meets them, in order. *)
Fixpoint rejected {E} `{Sink Phoneme E} (state : Lexer E)
  (text : list string) : list string :=
  match text with
  | [] => []
  | c :: rest =>
      (if unmatched state (Some c) then [c] else [])
      ++ rejected (lex state (Some c)) rest
  end.

Definition unexpected_characters (text : list string) : list string :=
  rejected (FavorConsonant (@nil (option Phoneme))) text.

Section ComplainsDef.
Context {E : Type} `{Sink Phoneme E}.

(** [r] is reached from a closure over [emit] on character [c] by
    emitting phonemes, then the end marker if [c] is [null]; there is an
    error among the phonemes exactly when [bad], and it is the complaint
    about [c]. *)
Definition complains (emit : E) (c : Char) (bad : bool) (r : Lexer E)
  : Prop :=
  exists phs,
    lexer_emit r = feed_all emit (map Some phs ++ ending c)
    /\ errors_in phs = if bad then [complaint c] else [].
End ComplainsDef.

(** The messages on the open slot. *)
Definition open_errors {E} (state : Aligner E) : list string :=
  match open_slot state with Some term => errors_of term | None => [] end.

(** The aligner state with its open slot replaced. *)
Definition reopen {E} (f : Slot -> Slot) (state : Aligner E) : Aligner E :=
  match state with
  | BeforeHigh term emit => BeforeHigh (f term) emit
  | High term v c emit => High (f term) v c emit
  | AfterHigh term v1 v2 emit => AfterHigh (f term) v1 v2 emit
  | Low term v c emit => Low (f term) v c emit
  | AfterLow term v1 v2 emit => AfterLow (f term) v1 v2 emit
  | AlignerEnd emit => AlignerEnd emit
  end.

(** A slot that [embelish] keeps: [!empty]. *)
Definition occupied (s : Slot) : bool :=
  negb (match empty s with Some b => b | None => false end).

(** ** Vowel symbols of a phoneme *)

Definition vowels_known (p : Phoneme) : Prop :=
  match p with
  | Vowel v => In v vowel_symbols
  | Diphthong a b => In a vowel_symbols /\ In b vowel_symbols
  | _ => True
  end.

(** ** Embellished glyphs *)

(** The glyph carries the features of its consonant and the simple stroke
    name of each of its attachments. *)
Definition named (g : Glyph) : bool :=
  let '(left_, right_) := io (Some g) in
  let s := slot g in
  forallb (fun f => has f g) (features (center s))
  && implb (truthy (west s))
           (has (text_of (west s) ++ "-west-" ++ left_)%string g)
  && implb (truthy (north s))
           (has (text_of (north s) ++ "-north-" ++ left_)%string g)
  && implb (truthy (east s))
           (has (text_of (east s) ++ "-east-" ++ right_)%string g)
  && implb (truthy (south s))
           (has (text_of (south s) ++ "-south-" ++ right_)%string g).

(** An east/west or south/north merge of [g] with its right neighbour
    [next] is resolvable. *)
Definition mergeable (g next : Glyph) : bool :=
  let right_ := snd (io (Some g)) in
  let nextLeft := fst (io (Some next)) in
  (truthy (east (slot g)) && same (east (slot g)) (west (slot next))
   && known (text_of (east (slot g)) ++ "-east-" ++ right_ ++ "-" ++ nextLeft)%string)
  || (truthy (south (slot g)) && same (south (slot g)) (north (slot next))
      && known (text_of (south (slot g)) ++ "-south-" ++ right_ ++ "-"
                  ++ nextLeft)%string).

Fixpoint no_merges (gs : list Glyph) : bool :=
  match gs with
  | g :: rest =>
      match rest with
      | next :: _ => negb (mergeable g next)
      | [] => true
      end && no_merges rest
  | [] => true
  end.

Definition no_empty (gs : list Glyph) : bool :=
  forallb (fun g => negb (is_empty g)) gs.


(** * Vocabulary of the further properties *)

(** The lexer closure after a whole text and the end marker. *)
Definition final {E} `{Sink Phoneme E} (state : Lexer E) (text : list string)
  : Lexer E :=
  lex (run state text) null.

(** What follows a ['q']: a ['u'] or ['w'] right after it is consumed. *)
Definition after_q (rest : list string) : list string :=
  match rest with
  | c :: rest' => if among (Some c) ["u"; "w"] then rest' else rest
  | [] => []
  end.

(** The first character of the rest of a text, [null] at its end. *)
Definition next_char (rest : list string) : Char :=
  match rest with c :: _ => Some c | [] => null end.

(** The characters that a run of white space absorbs, and those that
    start one. *)
Definition white : list string := [" "; LF; CR; TAB].
Definition breaking : list string := [" "; LF; CR].

(** Phonemes that put nothing on the grid. *)
Definition quiet (p : Phoneme) : bool :=
  match p with
  | SpacePh | Newline | Error _ => true
  | Consonant _ | Vowel _ | Diphthong _ _ => false
  end.

(** The aligner is before a word, on a slot that holds nothing yet. *)
Definition idle {E} (state : Aligner E) : Prop :=
  match state with
  | BeforeHigh term _ => occupied term = false
  | _ => False
  end.

(** A slot that is not empty has been emitted or is open. *)
Definition sounded (state : Aligner (list (option Slot))) : bool :=
  existsb occupied (somes (aligner_emit state))
  || match open_slot state with Some term => occupied term | None => false end.

(** The lexer closures that white space leads to, over a recorded stream
    of quiet phonemes. *)
Definition resting (state : Lexer (list (option Phoneme))) : Prop :=
  exists log,
    (state = FavorConsonant log \/ state = Space log \/ state = FavorVowel log)
    /\ forallb quiet (somes log) = true.

(** The model of a text with nothing to draw. *)
Definition blank_model : GlyphModel := mkModel [] (mkSize 1 1).

(** ** The consonant inventory *)

(** The keys of [consonantGlyphs]. *)
Definition consonant_symbols : list string := map fst consonantGlyphs.

Definition in_inventory (p : Phoneme) : Prop :=
  match p with
  | Consonant c => In c consonant_symbols
  | _ => True
  end.

Section LexerInventoryDef.
Context {E : Type} `{Sink Phoneme E}.

(** The letter a digraph closure holds is the one that led to it. *)
Definition holding (state : Lexer E) : Prop :=
  match state with
  | AfterGK _ first => In first ["g"; "k"]
  | AfterC _ first => first = "c"
  | AfterN _ first => first = "n"
  | AfterB _ first => first = "b"
  | AfterP _ first => first = "p"
  | AfterT _ first => first = "t"
  | AfterD _ first => first = "d"
  | _ => True
  end.

Definition emits_known (emit : E) (c : Char) (r : Lexer E) : Prop :=
  exists phs,
    lexer_emit r = feed_all emit (map Some phs ++ ending c)
    /\ Forall in_inventory phs /\ holding r.
End LexerInventoryDef.

(** ** Symbols on the slots *)

Definition center_ok (c : option string) : Prop :=
  match c with Some s => In s consonant_symbols | None => True end.

Definition vowel_ok (v : option string) : Prop :=
  match v with Some s => In s vowel_symbols | None => True end.

(** The center is a key of [consonantGlyphs] and the attachments are vowel
    symbols. *)
Definition slot_symbols (t : Slot) : Prop :=
  center_ok (center t) /\ vowel_ok (north t) /\ vowel_ok (south t)
  /\ vowel_ok (east t) /\ vowel_ok (west t).

Definition connector_symbols (c : Connector) : Prop :=
  center_ok (cCenter c) /\ vowel_ok (cNorth c) /\ vowel_ok (cSouth c)
  /\ vowel_ok (cEast c) /\ vowel_ok (cWest c).

Definition state_symbols {E} (state : Aligner E) : Prop :=
  match state with
  | BeforeHigh t _ => slot_symbols t
  | High t v c _ | AfterHigh t v c _ | Low t v c _ | AfterLow t v c _ =>
      slot_symbols t /\ connector_symbols v /\ connector_symbols c
  | AlignerEnd _ => True
  end.

Definition phoneme_symbols (p : Phoneme) : Prop :=
  in_inventory p /\ vowels_known p.

(** ** What the embellisher does to a glyph *)

(** An attachment that the embellisher may delete. *)
Definition kept_or_deleted (before after : option string) : Prop :=
  after = before \/ after = None.

(** [g'] is [g] with more strokes and, possibly, without its west or north
    attachment; nothing else differs. *)
Definition refines (g g' : Glyph) : Prop :=
  x (slot g') = x (slot g) /\ y (slot g') = y (slot g)
  /\ empty (slot g') = empty (slot g)
  /\ center (slot g') = center (slot g)
  /\ east (slot g') = east (slot g)
  /\ south (slot g') = south (slot g)
  /\ errors (slot g') = errors (slot g)
  /\ kept_or_deleted (west (slot g)) (west (slot g'))
  /\ kept_or_deleted (north (slot g)) (north (slot g'))
  /\ incl (strokes g) (strokes g').

(** The glyph carries every feature of its consonant. *)
Definition featured (g : Glyph) : Prop :=
  incl (features (center (slot g))) (strokes g).

(** Every stroke of the glyph is a feature of its consonant or a label of
    [vowelGlyphs]. *)
Definition labelled (g : Glyph) : Prop :=
  forall s, In s (strokes g) ->
            In s (features (center (slot g))) \/ known s = true.

(** The center of the glyph, if it has one, is a key of [consonantGlyphs]
    with a feature set that is not empty and that the glyph carries. *)
Definition resolved (g : Glyph) : Prop :=
  match center (slot g) with
  | Some c =>
      In c consonant_symbols /\ features (Some c) <> []
      /\ incl (features (Some c)) (strokes g)
  | None => True
  end.

(** The four directions of a stroke name and its two qualifiers. *)
Definition directions : list string :=
  ["-west-"; "-north-"; "-east-"; "-south-"].
Definition openness : list string := ["inner"; "outer"].

(** ** Reading order of the grid *)

(** The grid cell of a slot. *)
Definition cell (s : Slot) : Z * Z := (x s, y s).

(** A line of the script takes two rows, the high one and the low one.
    [before p q]: cell [p] comes before cell [q] when reading line by line,
    column by column, the high row of a column before its low row. *)
Definition before (p q : Z * Z) : Prop :=
  (snd p / 2 < snd q / 2
   \/ (snd p / 2 = snd q / 2
       /\ (fst p < fst q \/ (fst p = fst q /\ snd p < snd q))))%Z.

(** High states are on even rows, Low states on odd rows. *)
Definition placed {E} (state : Aligner E) : Prop :=
  match state with
  | BeforeHigh t _ | High t _ _ _ | AfterHigh t _ _ _ =>
      (0 <= y t /\ y t mod 2 = 0)%Z
  | Low t _ _ _ | AfterLow t _ _ _ => (0 <= y t /\ y t mod 2 = 1)%Z
  | AlignerEnd _ => True
  end.

(** ** Layout without diagnostics *)

(** A slot without its error list. *)
Definition forget (s : Slot) : Slot :=
  mkSlot (x s) (y s) (empty s) (center s) (north s) (south s) (east s)
         (west s) None.

(** A continuation that drops what it is fed. *)
#[global] Instance ignore (A : Type) : Sink A unit := fun _ _ => tt.

(** The aligner closure without its continuation and without the errors
    on its open slot. *)
Definition shape {E} (state : Aligner E) : Aligner unit :=
  reopen forget (amap (fun _ => tt) state).

(** Everything an aligner closure emits on a stream of phonemes. *)
Fixpoint outputs {E} `{Sink Slot E} (state : Aligner E)
  (evs : list (option Phoneme)) : list (option Slot) :=
  match evs with
  | [] => []
  | ev :: evs => output state ev ++ outputs (feed state ev) evs
  end.

(** The slots of a sequence of phonemes: what the aligner emits on them
    and on the end marker. *)
Definition slots_of (phs : list Phoneme) : list Slot :=
  somes (aligned (map Some phs ++ [None])).

Definition is_error (p : Phoneme) : bool :=
  match p with Error _ => true | _ => false end.

(** ** The [empty] flag *)

Definition present {A} (o : option A) : bool :=
  match o with Some _ => true | None => false end.

(** The slot holds a center or an attachment. *)
Definition content (s : Slot) : bool :=
  present (center s) || present (north s) || present (south s)
  || present (east s) || present (west s).

(** The flag [empty] is set, and says whether the slot holds nothing. *)
Definition tidy (s : Slot) : Prop := empty s = Some (negb (content s)).

Definition connector_content (c : Connector) : bool :=
  present (cCenter c) || present (cNorth c) || present (cSouth c)
  || present (cEast c) || present (cWest c).

(** A connector is [{}] or holds something and clears the [empty] flag. *)
Definition connector_tidy (c : Connector) : Prop :=
  c = nothing \/ (cEmpty c = Some false /\ connector_content c = true).

Definition state_tidy {E} (state : Aligner E) : Prop :=
  match state with
  | BeforeHigh t _ => tidy t
  | High t v c _ | AfterHigh t v c _ | Low t v c _ | AfterLow t v c _ =>
      tidy t /\ connector_tidy v /\ connector_tidy c
  | AlignerEnd _ => True
  end.

(** ** The canvas of the renderer

    The arithmetic of [render]: each stroke of a glyph is placed by
    [translate(x*stride.x, y*stride.y)] and the [width] and [height]
    attributes are set to [actual], before any scaling.  The DOM is left
    out. *)

Definition stride : Z * Z := (200, 162)%Z.

(** [translate(${x*stride.x}, ${y*stride.y})] *)
Definition translate (g : Glyph) : Z * Z :=
  (x (slot g) * fst stride, y (slot g) * snd stride)%Z.

(** [actual], as first computed: the [width] and [height] attributes. *)
Definition actual (model : GlyphModel) : Z * Z :=
  (500 + (size_x (size model) - 1) * fst stride,
   500 + (size_y (size model) - 1) * snd stride)%Z.

(** ** Vowel phonemes *)

(** The vowel that a vowel or diphthong phoneme attaches to the open slot. *)
Definition first_vowel (p : Phoneme) : option string :=
  match p with
  | Vowel v => Some v
  | Diphthong a _ => Some a
  | _ => None
  end.


(** * Properties *)

(** ** The lexer: evaluation budget *)

Ltac chain :=
  repeat match goal with
    | |- context [if isnull ?c then _ else _] =>
        destruct (isnull c) eqn:?; cbv iota
    | |- context [if among ?c ?l then _ else _] =>
        destruct (among c l) eqn:?; cbv iota
    end.

Ltac closures :=
  unfold afterQ, afterGK, afterC, afterN, afterB, afterP, afterT, afterD,
    afterS, afterSC, maybeDiphthong, space, favorVowel, favorConsonant.

Section LexerFuel.
Context {E : Type} `{Sink Phoneme E}.

Lemma call_S n (state : Lexer E) character :
    call (S n) state character =
    match state with
    | FavorVowel emit => favorVowel (call n) emit character
    | FavorConsonant emit => favorConsonant (call n) emit character
    | AfterQ emit => afterQ (call n) emit character
    | AfterGK emit first => afterGK (call n) emit first character
    | AfterC emit first => afterC (call n) emit first character
    | AfterN emit first => afterN (call n) emit first character
    | AfterB emit first => afterB (call n) emit first character
    | AfterP emit first => afterP (call n) emit first character
    | AfterT emit first => afterT (call n) emit first character
    | AfterD emit first => afterD (call n) emit first character
    | AfterS emit => afterS (call n) emit character
    | AfterSC emit => afterSC (call n) emit character
    | MaybeDiphthong emit first =>
        maybeDiphthong (call n) emit first character
    | Space emit => space (call n) emit character
    end.
  Proof. reflexivity. Qed.

  (** The three calls that ['x'] and ['q'] make on closures. *)
Lemma call_k n (emit : E) :
    call (S n) (FavorConsonant emit) (Some "k") = Some (AfterGK emit "k").
  Proof. reflexivity. Qed.

Lemma call_k_s n (emit : E) :
    call (S n) (AfterGK emit "k") (Some "s")
    = Some (AfterS (emit <~ Consonant "k")).
  Proof. reflexivity. Qed.

Lemma call_k_w n (emit : E) :
    call (S n) (AfterGK emit "k") (Some "w")
    = Some (MaybeDiphthong (emit <~ Consonant "k") "w").
  Proof. reflexivity. Qed.

Lemma favorConsonant_enough n (emit : E) first :
    favorConsonant (call (S n)) emit first <> None.
  Proof.
    unfold favorConsonant; chain; try discriminate.
  Qed.

Lemma favorVowel_enough n (emit : E) letter :
    favorVowel (call (S n)) emit letter <> None.
  Proof.
    unfold favorVowel; chain; try discriminate.
    apply favorConsonant_enough.
  Qed.

Lemma call_enough_2 n (state : Lexer E) character :
    (forall emit, state <> AfterQ emit) ->
    call (S (S n)) state character <> None.
  Proof.
    intros Hq. rewrite call_S.
    destruct state;
      try apply favorConsonant_enough; try apply favorVowel_enough;
      try (exfalso; eapply Hq; reflexivity);
      unfold afterGK, afterC, afterN, afterB, afterP, afterT, afterD,
        afterS, afterSC, maybeDiphthong, space;
      chain; try discriminate;
      try apply favorConsonant_enough; try apply favorVowel_enough.
  Qed.

  (** The budget of [lex] is never spent. *)
Lemma call_enough n (state : Lexer E) character :
    call (lexer_fuel + n) state character <> None.
  Proof.
    unfold lexer_fuel.
    destruct state; try (apply call_enough_2; discriminate).
    cbn [Nat.add]. rewrite call_S. unfold afterQ.
    rewrite call_k, call_k_w.
    destruct (among character ["u"]), (among character ["w"]);
      cbn [negb andb]; try discriminate.
    apply call_enough_2; discriminate.
  Qed.
End LexerFuel.

Section LexerMono.
Context {E : Type} `{Sink Phoneme E}.

Section Bodies.
Variables apply apply' : Lexer E -> Char -> option (Lexer E).
Hypothesis sub : forall s c r, apply s c = Some r -> apply' s c = Some r.

Lemma favorConsonant_mono emit first r :
      favorConsonant apply emit first = Some r ->
      favorConsonant apply' emit first = Some r.
    Proof.
      unfold favorConsonant; chain; try (intros; assumption).
      destruct (apply (FavorConsonant emit) (Some "k")) eqn:Hk;
        [|discriminate].
      rewrite (sub Hk). apply sub.
    Qed.

Lemma favorVowel_mono emit letter r :
      favorVowel apply emit letter = Some r ->
      favorVowel apply' emit letter = Some r.
    Proof.
      unfold favorVowel; chain; try (intros; assumption).
      apply favorConsonant_mono.
    Qed.

Lemma afterQ_mono emit second r :
      afterQ apply emit second = Some r -> afterQ apply' emit second = Some r.
    Proof.
      unfold afterQ.
      destruct (apply (FavorConsonant emit) (Some "k")) eqn:Hk;
        [|discriminate].
      rewrite (sub Hk).
      destruct (apply l (Some "w")) eqn:Hw; [|discriminate].
      rewrite (sub Hw).
      destruct (negb _ && negb _); [apply sub | intros; assumption].
    Qed.
End Bodies.

Lemma dispatch_mono apply apply' :
    (forall s c r, apply s c = Some r -> apply' s c = Some r) ->
    forall (state : Lexer E) character r,
      dispatch apply state character = Some r ->
      dispatch apply' state character = Some r.
  Proof.
    intros sub state character r.
    destruct state; cbn [dispatch];
      try apply (@favorConsonant_mono apply apply' sub);
      try apply (@favorVowel_mono apply apply' sub);
      try apply (@afterQ_mono apply apply' sub);
      unfold afterGK, afterC, afterN, afterB, afterP, afterT, afterD,
        afterS, afterSC, maybeDiphthong, space;
      chain; try (intros; assumption);
      try apply (@favorConsonant_mono apply apply' sub);
      try apply (@favorVowel_mono apply apply' sub).
  Qed.

Lemma call_mono n : forall (state : Lexer E) character r,
    call n state character = Some r -> call (S n) state character = Some r.
  Proof.
    induction n as [|n IH]; intros state character r; [discriminate|].
    apply (dispatch_mono (call n) (call (S n)) IH).
  Qed.

  (** Any larger budget gives the result of [lex]. *)
Lemma call_stable n (state : Lexer E) character :
    call (lexer_fuel + n) state character = Some (lex state character).
  Proof.
    induction n as [|n IH].
    - rewrite Nat.add_0_r. unfold lex.
      destruct (call lexer_fuel state character) eqn:Hc; [reflexivity|].
      exfalso. apply (call_enough 0 state character).
      rewrite Nat.add_0_r. exact Hc.
    - rewrite Nat.add_succ_r. apply call_mono, IH.
  Qed.

Lemma call_lex (state : Lexer E) character :
    call lexer_fuel state character = Some (lex state character).
  Proof.
    generalize (call_stable 0 state character).
    rewrite Nat.add_0_r. exact id.
  Qed.

  (** [lex] is a solution of the recursive equations of the source: a call
      made inside a closure body returns what [lex] returns. *)
Lemma lex_dispatch (state : Lexer E) character :
    dispatch (fun s c => Some (lex s c)) state character
    = Some (lex state character).
  Proof.
    apply (dispatch_mono (call 2)); [|apply call_lex].
    intros s c r Hr. apply call_mono in Hr.
    change (call 3 s c = Some r) with (call lexer_fuel s c = Some r) in Hr.
    rewrite call_lex in Hr. exact Hr.
  Qed.
End LexerMono.

(** ** The lexer does not depend on what its continuation does *)

Section LexerMap.
Context {E E' : Type} `{Sink Phoneme E} `{Sink Phoneme E'}.
Variable g : E -> E'.
Hypothesis g_feed : forall e a, g (feed e a) = feed (g e) a.
Local Abbreviation lm := (lmap g).


Lemma lexer_emit_lmap state :
    lexer_emit (lmap g state) = g (lexer_emit state).
  Proof. destruct state; reflexivity. Qed.

Section Bodies.
Variable apply : Lexer E -> Char -> option (Lexer E).
Variable apply' : Lexer E' -> Char -> option (Lexer E').
Hypothesis rel : forall s c, apply' (lm s) c = option_map lm (apply s c).

Lemma favorConsonant_lmap emit first :
      favorConsonant apply' (g emit) first
      = option_map lm (favorConsonant apply emit first).
    Proof.
      unfold favorConsonant, close; chain; cbn [option_map lmap];
        rewrite ?g_feed; try reflexivity.
      change (FavorConsonant (g emit)) with (lm (FavorConsonant emit)).
      rewrite rel.
      destruct (apply (FavorConsonant emit) (Some "k")); [|reflexivity].
      cbn [option_map]. apply rel.
    Qed.

Lemma favorVowel_lmap emit letter :
      favorVowel apply' (g emit) letter
      = option_map lm (favorVowel apply emit letter).
    Proof.
      unfold favorVowel; chain; [reflexivity|].
      apply favorConsonant_lmap.
    Qed.

Lemma afterQ_lmap emit second :
      afterQ apply' (g emit) second
      = option_map lm (afterQ apply emit second).
    Proof.
      unfold afterQ.
      change (FavorConsonant (g emit)) with (lm (FavorConsonant emit)).
      rewrite rel.
      destruct (apply (FavorConsonant emit) (Some "k")); [|reflexivity].
      cbn [option_map]. rewrite rel.
      destruct (apply l (Some "w")); [|reflexivity].
      cbn [option_map].
      destruct (negb _ && negb _); [apply rel | reflexivity].
    Qed.
End Bodies.

Lemma call_lmap n : forall state character,
    call n (lm state) character = option_map lm (call n state character).
  Proof.
    induction n as [|n IH]; intros state character; [reflexivity|].
    rewrite !call_S.
    destruct state; cbn [lmap];
      try apply (@favorConsonant_lmap (call n) (call n) IH);
      try apply (@favorVowel_lmap (call n) (call n) IH);
      try apply (@afterQ_lmap (call n) (call n) IH);
      unfold afterGK, afterC, afterN, afterB, afterP, afterT, afterD,
        afterS, afterSC, maybeDiphthong, space, close;
      chain; cbn [option_map lmap]; rewrite <- ?g_feed; try reflexivity;
      try apply (@favorConsonant_lmap (call n) (call n) IH);
      try apply (@favorVowel_lmap (call n) (call n) IH).
  Qed.

Lemma lex_lmap state character :
    lex (lm state) character = lm (lex state character).
  Proof.
    unfold lex at 1. rewrite call_lmap, call_lex. reflexivity.
  Qed.

Lemma run_lmap text : forall state,
    run (lm state) text = lm (run state text).
  Proof.
    induction text as [|c text IH]; intros state; [reflexivity|].
    cbn [run fold_left]. rewrite lex_lmap. apply IH.
  Qed.
End LexerMap.

(** ** What the lexer emits *)

Lemma among_in c labels : among c labels = true -> In (str c) labels.
Proof.
  destruct c as [s|]; [|discriminate]. cbn [among str].
  intros Hex. apply existsb_exists in Hex. destruct Hex as [l [Hin Heq]].
  apply String.eqb_eq in Heq. subst. exact Hin.
Qed.

Lemma feed_all_app {A E} `{Sink A E} (e : E) (l1 l2 : list (option A)) :
  feed_all e (l1 ++ l2) = feed_all (feed_all e l1) l2.
Proof. apply fold_left_app. Qed.

Section LexerEmits.
Context {E : Type} `{Sink Phoneme E}.


Lemma emits_more emit p c r :
    lexable p -> emits (emit <~ p) c r -> emits emit c r.
  Proof.
    intros Hp [phs [He [Hl Hpend]]]. exists (p :: phs).
    split; [exact He|]. split; [constructor; assumption | exact Hpend].
  Qed.

Lemma emits_then emit r1 c r2 s :
    emits emit (Some s) r1 -> emits (lexer_emit r1) c r2 -> emits emit c r2.
  Proof.
    intros [p1 [He1 [Hl1 _]]] [p2 [He2 [Hl2 Hpend]]].
    exists (p1 ++ p2). split; [|split; [apply Forall_app; split|]]; trivial.
    rewrite He2, He1. cbn [ending isnull]. rewrite app_nil_r.
    rewrite map_app, <- app_assoc. symmetry. apply feed_all_app.
  Qed.

Ltac leaf :=
    match goal with
    | |- Some _ = Some _ -> _ =>
        let Hr := fresh in intros Hr; injection Hr as <-
    end;
    unfold emits, ending;
    repeat match goal with
      | Hn : isnull ?c = _ |- context [isnull ?c] => rewrite Hn
      end;
    first [ exists []; split; [reflexivity|]
          | eexists (cons _ nil); split; [reflexivity|]
          | eexists (cons _ (cons _ nil)); split; [reflexivity|] ];
    (split; [repeat apply Forall_cons; try apply Forall_nil
           | cbn [pending]; trivial]).

Ltac vowel_goal :=
    repeat match goal with
      | Ha : among _ _ = true |- _ => apply among_in in Ha; cbn [In] in Ha
      end;
    cbn [lexable] in *; unfold vowel_symbols in *; cbn [In] in *; try tauto.

Lemma emits_ending emit c c' r :
    isnull c = isnull c' -> emits emit c r -> emits emit c' r.
  Proof. unfold emits, ending. intros <-. exact id. Qed.

Section Bodies.
Variable apply : Lexer E -> Char -> option (Lexer E).
Hypothesis apply_emits :
      forall s c r, apply s c = Some r -> pending s -> emits (lexer_emit s) c r.

Lemma favorConsonant_emits emit first r :
      favorConsonant apply emit first = Some r -> emits emit first r.
    Proof.
      unfold favorConsonant, close; chain; try (leaf; vowel_goal; fail).
      - destruct (apply (FavorConsonant emit) (Some "k")) as [k|] eqn:Hk;
          [|discriminate].
        intros Hs. apply apply_emits in Hk; [|exact I].
        assert (Hpk : pending k) by (destruct Hk as [? [_ [_ ?]]]; assumption).
        apply apply_emits in Hs; [|exact Hpk].
        apply emits_ending with (c := Some "s"); [symmetry; assumption|].
        eapply emits_then; eassumption.
      - leaf. eexists; reflexivity.
    Qed.

Lemma favorVowel_emits emit letter r :
      favorVowel apply emit letter = Some r -> emits emit letter r.
    Proof.
      unfold favorVowel; chain; [|apply favorConsonant_emits].
      assert (Hn : isnull letter = false) by (destruct letter; easy).
      leaf; vowel_goal.
    Qed.

Lemma afterQ_emits emit second r :
      afterQ apply emit second = Some r -> emits emit second r.
    Proof.
      unfold afterQ.
      destruct (apply (FavorConsonant emit) (Some "k")) as [k|] eqn:Hk;
        [|discriminate].
      destruct (apply k (Some "w")) as [next|] eqn:Hw; [|discriminate].
      apply apply_emits in Hk; [|exact I].
      assert (Hpk : pending k) by (destruct Hk as [? [_ [_ ?]]]; assumption).
      apply apply_emits in Hw; [|exact Hpk].
      assert (Hnext : emits emit (Some "w") next)
        by (eapply emits_then; eassumption).
      assert (Hpn : pending next)
        by (destruct Hw as [? [_ [_ ?]]]; assumption).
      destruct (among second ["u"]) eqn:Hu;
        [|destruct (among second ["w"]) eqn:Hw2]; cbn [negb andb].
      - intros Hr; injection Hr as <-.
        apply emits_ending with (c := Some "w"); [|assumption].
        destruct second; easy.
      - intros Hr; injection Hr as <-.
        apply emits_ending with (c := Some "w"); [|assumption].
        destruct second; easy.
      - intros Hr. apply apply_emits in Hr; [|exact Hpn].
        eapply emits_then; eassumption.
    Qed.

Lemma digraph_emits emit p (c : Char) r :
      lexable p ->
      favorVowel apply (emit <~ p) c = Some r -> emits emit c r.
    Proof.
      intros Hp Hr. apply emits_more with (p := p); [exact Hp|].
      apply favorVowel_emits, Hr.
    Qed.

Lemma maybeDiphthong_emits emit first second r :
      In first vowel_symbols ->
      maybeDiphthong apply emit first second = Some r -> emits emit second r.
    Proof.
      intros Hfirst. unfold maybeDiphthong, close; chain;
        try (leaf; vowel_goal; fail).
      intros Hr. apply emits_more with (p := Vowel first); [exact Hfirst|].
      apply favorConsonant_emits, Hr.
    Qed.

Lemma space_emits emit letter r :
      space apply emit letter = Some r -> emits emit letter r.
    Proof.
      unfold space; chain; [|apply favorConsonant_emits].
      assert (Hn : isnull letter = false) by (destruct letter; easy).
      leaf.
    Qed.
End Bodies.

Lemma call_emits n : forall (s : Lexer E) c r,
    call n s c = Some r -> pending s -> emits (lexer_emit s) c r.
  Proof.
    induction n as [|n IH]; intros s c r; [discriminate|].
    rewrite call_S.
    destruct s; cbn [lexer_emit pending]; intros Hr Hp;
      try (revert Hr; apply (@favorConsonant_emits (call n) IH); fail);
      try (revert Hr; apply (@favorVowel_emits (call n) IH); fail);
      try (revert Hr; apply (@afterQ_emits (call n) IH); fail);
      try (revert Hr; apply (@maybeDiphthong_emits (call n) IH); exact Hp);
      try (revert Hr; apply (@space_emits (call n) IH); fail);
      revert Hr;
      unfold afterGK, afterC, afterN, afterB, afterP, afterT, afterD,
        afterS, afterSC; chain;
      try (assert (Hn : isnull c = false) by (destruct c; easy);
           leaf; vowel_goal; fail);
      try (apply (@digraph_emits (call n) IH); exact I).
    intros Hr. apply emits_more with (p := Consonant "s"); [exact I|].
    revert Hr. apply (@digraph_emits (call n) IH); exact I.
  Qed.

  (** Every call of a lexer closure emits lexable phonemes only, and the
      end marker exactly at the end of the text. *)
Lemma lex_emits (s : Lexer E) c :
    pending s -> emits (lexer_emit s) c (lex s c).
  Proof. apply call_emits with (n := lexer_fuel), call_lex. Qed.
End LexerEmits.

(** ** The aligner does not depend on what its continuation does *)

Section AlignerMap.
Context {E E' : Type} `{Sink Slot E} `{Sink Slot E'}.
Variable g : E -> E'.
Hypothesis g_feed : forall e a, g (feed e a) = feed (g e) a.

Lemma aligner_emit_amap state :
    aligner_emit (amap g state) = g (aligner_emit state).
  Proof. destruct state; reflexivity. Qed.

Lemma feed_amap (state : Aligner E) phoneme :
    feed (amap g state) phoneme = amap g (feed state phoneme).
  Proof.
    destruct state, phoneme as [[]|]; cbn;
      repeat match goal with
        | |- context [if ?b then _ else _] => destruct b
        end;
      cbn; unfold close; rewrite ?g_feed; reflexivity.
  Qed.

Lemma feed_all_amap phs : forall state : Aligner E,
    feed_all (amap g state) phs = amap g (feed_all state phs).
  Proof.
    induction phs as [|ph phs IH]; intros state; [reflexivity|].
    cbn [feed_all fold_left]. rewrite feed_amap. apply IH.
  Qed.
End AlignerMap.

(** ** The pipeline, stage by stage *)

Lemma feed_all_snoc {A E} `{Sink A E} (e : E) evs a :
  feed_all e (evs ++ [a]) = feed (feed_all e evs) a.
Proof. rewrite feed_all_app. reflexivity. Qed.

Lemma feed_all_recorder {A} (log evs : list (option A)) :
  feed_all log evs = log ++ evs.
Proof.
  induction evs as [|a evs IH] using rev_ind.
  - rewrite app_nil_r. reflexivity.
  - rewrite feed_all_snoc, IH. unfold feed, recorder.
    symmetry. apply app_assoc.
Qed.

(** The aligner of [start] has received exactly what the lexer emits, and
    the collector exactly what the aligner emits. *)
Lemma pipeline_state text :
  aligner_emit (lexer_emit (lex (run start text) null))
  = feed_all collector0 (aligned (lexed text)).
Proof.
  unfold start, lexed, aligned.
  set (G1 := fun tr : list (option Phoneme) => feed_all (aligner collector0) tr).
  set (G2 := fun tr : list (option Slot) => feed_all collector0 tr).
  assert (H1 : forall e a, G1 (feed e a) = feed (G1 e) a)
    by (intros; apply feed_all_snoc).
  assert (H2 : forall e a, G2 (feed e a) = feed (G2 e) a)
    by (intros; apply feed_all_snoc).
  change (FavorConsonant (aligner (mkCollector (Collect []) [])))
    with (lmap G1 (FavorConsonant (@nil (option Phoneme)))).
  rewrite (run_lmap G1 H1), (lex_lmap G1 H1), lexer_emit_lmap.
  unfold G1 at 1.
  change (aligner collector0) with (amap G2 (aligner (@nil (option Slot)))).
  rewrite (feed_all_amap G2 H2), aligner_emit_amap. reflexivity.
Qed.

Lemma parse_stages text :
  parse text = result (feed_all collector0 (aligned (lexed text))).
Proof. unfold parse. rewrite pipeline_state. reflexivity. Qed.

Lemma somes_app {A} (l1 l2 : list (option A)) :
  somes (l1 ++ l2) = somes l1 ++ somes l2.
Proof. apply flat_map_app. Qed.

Lemma somes_map_Some {A} (l : list A) : somes (map Some l) = l.
Proof.
  induction l as [|a l IH]; [reflexivity|].
  cbn. f_equal. exact IH.
Qed.

(** *** The lexer stage *)

Lemma run_emits text : forall s : Lexer (list (option Phoneme)),
  pending s ->
  exists phs,
    lexer_emit (run s text) = lexer_emit s ++ map Some phs
    /\ Forall lexable phs /\ pending (run s text).
Proof.
  induction text as [|c text IH]; intros s Hs.
  - exists []. cbn. rewrite app_nil_r. auto.
  - cbn [run fold_left].
    destruct (lex_emits s (Some c) Hs) as [p1 [He1 [Hl1 Hp1]]].
    destruct (IH _ Hp1) as [p2 [He2 [Hl2 Hp2]]].
    exists (p1 ++ p2). split; [|split; [apply Forall_app; split|]]; trivial.
    unfold run in He2. rewrite He2, He1, feed_all_recorder.
    cbn [ending isnull]. rewrite app_nil_r, map_app. symmetry.
    apply app_assoc.
Qed.

(** The lexer emits the phonemes of the text, then the end marker once;
    every phoneme is lexable. *)
Lemma lexed_shape text :
  lexed text = map Some (phonemes text) ++ [None]
  /\ Forall lexable (phonemes text).
Proof.
  unfold phonemes, lexed.
  destruct (run_emits text (FavorConsonant []) I) as [p1 [He1 [Hl1 Hp1]]].
  destruct (lex_emits _ null Hp1) as [p2 [He2 [Hl2 _]]].
  rewrite He2, He1, feed_all_recorder. cbn [lexer_emit app ending isnull null].
  rewrite app_assoc, <- map_app.
  rewrite somes_app, somes_map_Some. cbn [somes flat_map]. rewrite app_nil_r.
  split; [reflexivity|]. apply Forall_app; split; assumption.
Qed.

(** *** The aligner stage *)

Ltac branches :=
  cbn;
  repeat match goal with
    | |- context [if ?b then _ else _] => destruct b eqn:?; cbn
    end.

Ltac transitions state phoneme :=
  destruct state; try contradiction; destruct phoneme; branches.

Lemma feed_output (state : Aligner (list (option Slot))) phoneme :
  aligner_emit (feed state phoneme) = aligner_emit state ++ output state phoneme.
Proof.
  unfold output.
  destruct phoneme as [p|]; [transitions state p | destruct state; cbn];
    unfold close, feed, recorder; cbn;
    rewrite ?app_nil_r, <- ?app_assoc; reflexivity.
Qed.

Lemma live_feed {E} `{Sink Slot E} (state : Aligner E) p :
  live state -> live (feed state (Some p)).
Proof. intros Hl. transitions state p; exact I. Qed.

(** A phoneme makes a live aligner emit slots, never the end marker. *)
Lemma output_phoneme {E} `{Sink Slot E} (state : Aligner E) p :
  live state ->
  output state (Some p) = map Some (somes (output state (Some p))).
Proof. intros Hl. unfold output. transitions state p; reflexivity. Qed.

(** The end marker makes a live aligner emit its open slot, then the end
    marker, and stop. *)
Lemma output_end {E} `{Sink Slot E} (state : Aligner E) term :
  open_slot state = Some term ->
  output state None = [Some term; None] /\ ~ live (feed state None).
Proof.
  intros Ho. destruct state; try discriminate; cbn in Ho;
    injection Ho as <-; split; cbn; auto.
Qed.

Lemma live_open {E} (state : Aligner E) :
  live state -> exists term, open_slot state = Some term.
Proof. destruct state; cbn; try contradiction; eauto. Qed.

Lemma aligned_phonemes phs : forall state : Aligner (list (option Slot)),
  live state ->
  live (feed_all state (map Some phs))
  /\ exists ss,
      aligner_emit (feed_all state (map Some phs))
      = aligner_emit state ++ map Some ss.
Proof.
  induction phs as [|p phs IH]; intros state Hl.
  - split; [exact Hl|]. exists []. cbn. rewrite app_nil_r. reflexivity.
  - cbn [map feed_all fold_left].
    destruct (IH _ (live_feed state p Hl)) as [Hl' [ss Hss]].
    split; [exact Hl'|].
    exists (somes (output state (Some p)) ++ ss).
    unfold feed_all in Hss. rewrite Hss, feed_output.
    rewrite (output_phoneme state p Hl) at 1.
    rewrite map_app. symmetry. apply app_assoc.
Qed.

Lemma collect_slots ss : forall head res,
  feed_all (mkCollector (Collect head) res) (map Some ss)
  = mkCollector (Collect (head ++ ss)) res.
Proof.
  induction ss as [|s ss IH]; intros head res.
  - cbn. rewrite app_nil_r. reflexivity.
  - cbn [map feed_all fold_left]. unfold feed at 2, collector.
    cbn [continue result]. unfold feed_all in IH. rewrite IH.
    rewrite <- app_assoc. reflexivity.
Qed.

(** [cb] is called, once, with the slots the aligner emitted: the aligner
    emits the slots [parse] returns, then the end marker. *)
Lemma aligned_shape text :
  aligned (lexed text) = map Some (parse text) ++ [None].
Proof.
  rewrite parse_stages.
  destruct (lexed_shape text) as [-> _].
  unfold aligned. rewrite feed_all_snoc.
  destruct (aligned_phonemes (phonemes text) (aligner []) I) as [Hl [ss Hss]].
  destruct (live_open _ Hl) as [term Hterm].
  rewrite feed_output, Hss.
  destruct (output_end _ Hterm) as [-> _].
  cbn [aligner aligner_emit app].
  change [Some term; None] with (map Some [term] ++ [@None Slot]).
  rewrite app_assoc, <- map_app.
  unfold collector0. rewrite feed_all_snoc, collect_slots. reflexivity.
Qed.

(** ** The size calculator *)

Lemma fold_max_extent (coord : Slot -> Z) gs : forall init,
  let v := fold_left (fun max g => Z.max (coord (slot g) + 1) max) gs init in
  (init <= v)%Z
  /\ (forall g, In g gs -> (coord (slot g) + 1 <= v)%Z)
  /\ (v = init \/ exists g, In g gs /\ v = (coord (slot g) + 1)%Z).
Proof.
  induction gs as [|g gs IH]; intros init; cbn [fold_left].
  - split; [lia|]. split; [intros g []|]. left; reflexivity.
  - specialize (IH (Z.max (coord (slot g) + 1) init)).
    cbv zeta in IH |- *. destruct IH as [Hge [Hall Hex]].
    split; [lia|]. split.
    + intros g' [<-|Hin]; [lia | apply Hall, Hin].
    + destruct Hex as [Heq | [g' [Hin Heq]]].
      * destruct (Z.max_spec (coord (slot g) + 1) init) as [[_ Hm]|[_ Hm]].
        -- left. rewrite Heq. exact Hm.
        -- right. exists g. split; [left; reflexivity|].
           rewrite Heq. exact Hm.
      * right. exists g'. split; [right; exact Hin | exact Heq].
Qed.

Lemma measure_extent gs :
  is_extent x gs (size_x (measure gs)) /\ is_extent y gs (size_y (measure gs)).
Proof.
  split; [apply (fold_max_extent x gs 1%Z) | apply (fold_max_extent y gs 1%Z)].
Qed.

(** C1.  For every input, the size of the GlyphModel that [transcribe]
    returns is, in each direction, the largest coordinate plus one over the
    returned glyphs, and 1 when there is none: [size.x >= 1], [size.x >=
    glyph.x + 1] for every glyph, and [size.x] is 1 or is [glyph.x + 1] for
    some returned glyph; likewise for [y]. *)
Theorem C1_size_is_extent (text : list string) :
  let model := transcribe text in
  size model = measure (glyphs model)
  /\ is_extent x (glyphs model) (size_x (size model))
  /\ is_extent y (glyphs model) (size_y (size model)).
Proof.
  cbv zeta. unfold transcribe. cbn [size glyphs].
  split; [reflexivity | apply measure_extent].
Qed.

(** ** Coordinates *)

Lemma grounded_feed {E} `{Sink Slot E} (state : Aligner E) phoneme :
  grounded state -> grounded (feed state phoneme).
Proof.
  intros Hg. destruct phoneme as [p|];
    [transitions state p | destruct state; cbn]; cbn in Hg; try lia; auto.
Qed.

Lemma output_on_grid {E} `{Sink Slot E} (state : Aligner E) phoneme :
  grounded state -> Forall on_grid (somes (output state phoneme)).
Proof.
  intros Hg. unfold output, on_grid. destruct phoneme as [p|];
    [transitions state p | destruct state; cbn]; cbn in Hg;
    repeat constructor; cbn; lia.
Qed.

Lemma aligned_on_grid phs : forall state : Aligner (list (option Slot)),
  grounded state ->
  Forall on_grid (somes (aligner_emit state)) ->
  grounded (feed_all state phs)
  /\ Forall on_grid (somes (aligner_emit (feed_all state phs))).
Proof.
  induction phs as [|p phs IH]; intros state Hg Hl; [split; assumption|].
  cbn [feed_all fold_left]. apply IH; [apply grounded_feed, Hg|].
  rewrite feed_output, somes_app. apply Forall_app. split; [exact Hl|].
  apply output_on_grid, Hg.
Qed.

(** ** The embellisher keeps the slots in place *)

Lemma slot_add name g : slot (add name g) = slot g.
Proof. unfold add. destruct (has name g); reflexivity. Qed.

Lemma slot_add_all names : forall g, slot (add_all names g) = slot g.
Proof.
  induction names as [|n names IH]; intros g; [reflexivity|].
  cbn [add_all fold_left]. unfold add_all in IH. rewrite IH. apply slot_add.
Qed.

Section Keeps.
Context {A : Type}.
Variable f : Slot -> A.
  (** [f] does not look at the keys that [embelish] deletes. *)
Hypothesis f_deleted : forall a b e c n s ea w er n' w',
    f (mkSlot a b e c n s ea w er) = f (mkSlot a b e c n' s ea w' er).

Lemma keeps_delete_west g : f (slot (delete_west g)) = f (slot g).
  Proof. destruct g as [[] ?]. cbn. apply f_deleted. Qed.

Lemma keeps_delete_north g : f (slot (delete_north g)) = f (slot g).
  Proof. destruct g as [[] ?]. cbn. apply f_deleted. Qed.

Lemma name_strokes_keeps g next :
    f (slot (fst (name_strokes g next))) = f (slot g)
    /\ option_map (fun n => f (slot n)) (snd (name_strokes g next))
       = option_map (fun n => f (slot n)) next.
  Proof.
    unfold name_strokes.
    destruct (io (Some g)) as [l r], (io next) as [nl nr].
    repeat match goal with
      | |- context [if ?b then _ else _] => destruct b
      end;
      cbn [fst snd]; rewrite ?slot_add; (split; [reflexivity|]);
      destruct next as [n|]; cbn [option_map]; try reflexivity;
      rewrite ?keeps_delete_north, ?keeps_delete_west; reflexivity.
  Qed.

Lemma name_from_keeps rest : forall g,
    map (fun n => f (slot n)) (name_from g rest)
    = f (slot g) :: map (fun n => f (slot n)) rest.
  Proof.
    induction rest as [|next rest IH]; intros g; cbn [name_from map].
    - f_equal. apply name_strokes_keeps.
    - destruct (name_strokes_keeps g (Some next)) as [Hg Hn].
      destruct (name_strokes g (Some next)) as [g' mutated].
      cbn [fst snd] in Hg, Hn. cbn [map]. rewrite IH. f_equal; [exact Hg|].
      f_equal. destruct mutated as [n|]; [|reflexivity].
      cbn in Hn. injection Hn as Hn. exact Hn.
  Qed.

Lemma embelish_keeps gs :
    map (fun n => f (slot n)) (embelish gs)
    = map (fun n => f (slot n)) (filter (fun g => negb (is_empty g)) gs).
  Proof.
    unfold embelish.
    induction (filter (fun g => negb (is_empty g)) gs) as [|g l _];
      [reflexivity|].
    cbn [map name_all]. rewrite name_from_keeps, slot_add_all. f_equal.
    rewrite map_map. apply map_ext. intros n. rewrite slot_add_all.
    reflexivity.
  Qed.
End Keeps.

Lemma parse_aligned text : somes (aligned (lexed text)) = parse text.
Proof.
  rewrite aligned_shape, somes_app, somes_map_Some. apply app_nil_r.
Qed.

(** C10.  For every input, every slot the aligner emits and every glyph of
    the returned GlyphModel has [x >= 0] and [y >= 0]; every aligner state
    reached on the way is on a row [y >= 0] when it is a High state and on a
    row [y >= 1] when it is a Low state, so that the [y - 1] of the Low
    states never goes below zero. *)
Theorem C10_coordinates_nonnegative (text : list string) :
  Forall on_grid (parse text)
  /\ Forall (fun g => on_grid (slot g)) (glyphs (transcribe text))
  /\ forall n,
      grounded (feed_all (aligner (@nil (option Slot)))
                         (firstn n (lexed text))).
Proof.
  assert (H0 : grounded (aligner (@nil (option Slot)))) by (cbn; lia).
  assert (Hparse : Forall on_grid (parse text)).
  { rewrite <- parse_aligned. unfold aligned.
    apply aligned_on_grid; [exact H0 | constructor]. }
  split; [exact Hparse|]. split.
  - unfold transcribe. cbn [glyphs].
    assert (Hk := embelish_keeps (fun s => (x s, y s))
                    (fun _ _ _ _ _ _ _ _ _ _ _ => eq_refl)
                    (map of_slot (parse text))).
    apply Forall_forall. intros g Hg.
    apply (in_map (fun n => (x (slot n), y (slot n)))) in Hg.
    rewrite Hk in Hg. apply in_map_iff in Hg. destruct Hg as [g' [Heq Hin]].
    apply filter_In in Hin. destruct Hin as [Hin _].
    apply in_map_iff in Hin. destruct Hin as [s [<- Hs]].
    cbn in Heq. injection Heq as Hx Hy.
    rewrite Forall_forall in Hparse. specialize (Hparse s Hs).
    unfold on_grid in *. rewrite <- Hx, <- Hy. exact Hparse.
  - intros n. apply aligned_on_grid; [exact H0 | constructor].
Qed.

(** ** Line ends *)

(** C7.  In each of the five aligner states, a newline phoneme leads to
    [beforeHigh] on a fresh empty slot in column 0; the row advances by 2
    from [beforeHigh], [high] and [afterHigh], and by 1 from the Low states
    [low] and [afterLow]. *)
Theorem C7_newline_resets_column {E} `{Sink Slot E}
  (state : Aligner E) (term : Slot) :
  open_slot state = Some term ->
  exists emit,
    feed state (Some Newline)
    = BeforeHigh
        (blank 0 (y term + (if is_low state then 1 else 2)) true) emit.
Proof.
  intros Ho. destruct state; try discriminate; cbn in Ho;
    injection Ho as <-; cbn;
    repeat match goal with
      | |- context [if ?b then _ else _] => destruct b
      end; eexists; reflexivity.
Qed.

Lemma C7_newline_resets_column_witness :
  let state := Low (blank 3 5 true) nothing nothing (@nil (option Slot)) in
  open_slot state = Some (blank 3 5 true)
  /\ exists emit,
      feed state (Some Newline) = BeforeHigh (blank 0 6 true) emit.
Proof.
  split; [reflexivity|].
  apply (C7_newline_resets_column
           (Low (blank 3 5 true) nothing nothing (@nil (option Slot)))
           (term := blank 3 5 true)).
  reflexivity.
Defined.

(** ** Clusters of consonants *)

(** C5.  Two consonant phonemes in a row, from any of the five states:
    the second one makes the aligner emit the hub of the first and open the
    hub of the second, with the placeholder vowel [e] on both sides of the
    gap: south of a high hub and north of the next hub, one row down; east
    of a low hub and west of the next hub, one column on and one row up. *)
Theorem C5_placeholder_vowel {E} `{Sink Slot E}
  (state : Aligner E) (c1 c2 : string) :
  live state ->
  let state1 := feed state (Some (Consonant c1)) in
  let state2 := feed state1 (Some (Consonant c2)) in
  exists hub next,
    output state1 (Some (Consonant c2)) = [Some hub]
    /\ open_slot state2 = Some next
    /\ center hub = Some c1 /\ center next = Some c2
    /\ if is_low state1
       then east hub = Some "e" /\ west next = Some "e"
            /\ x next = (x hub + 1)%Z /\ y next = (y hub - 1)%Z
       else south hub = Some "e" /\ north next = Some "e"
            /\ x next = x hub /\ y next = (y hub + 1)%Z.
Proof.
  intros Hl. cbv zeta. unfold output.
  destruct state; try contradiction; cbn;
    eexists; eexists; (split; [reflexivity|]); (split; [reflexivity|]);
    cbn; repeat split; reflexivity.
Qed.

Lemma C5_placeholder_vowel_witness :
  let state := aligner (@nil (option Slot)) in
  live state
  /\ exists hub next,
      output (feed state (Some (Consonant "m"))) (Some (Consonant "n"))
      = [Some hub]
      /\ open_slot
           (feed (feed state (Some (Consonant "m"))) (Some (Consonant "n")))
         = Some next
      /\ center hub = Some "m" /\ center next = Some "n"
      /\ south hub = Some "e" /\ north next = Some "e"
      /\ x next = x hub /\ y next = (y hub + 1)%Z.
Proof.
  split; [exact I|].
  apply (C5_placeholder_vowel (aligner (@nil (option Slot))) "m" "n" I).
Defined.

(** The text ["mn"] end to end. *)
Example mn_slots :
  parse (chars "mn")
  = [ set_south "e" (set_center "m" (blank 0 0 false));
      set_center "n" (set_north "e" (blank 0 1 false)) ].
Proof. vm_compute. reflexivity. Qed.

(** ** Word boundaries *)

(** [{...term, ...{}}] is [term]. *)
Lemma spread_nothing term : spread term nothing = term.
Proof. destruct term; reflexivity. Qed.

(** C6, as the code has it.  What a space does depends on the closure it
    meets, and the closure that follows is the one stated here, with its
    slot, its connectors and its continuation.  From [afterHigh] and from
    [afterLow] the hub is emitted and a fresh empty slot opened one column
    on, always; from [high] exactly when the hub carries a west or north
    attachment, and the hub is then emitted with the placeholder consonant
    [m].  From [beforeHigh], and from [high] without such an attachment,
    nothing is emitted and the open slot stays.  The pending connectors are
    dropped in every case.  From [low] a space emits nothing and keeps the
    slot, but the closure that follows is [afterLow] without connectors,
    and the next vowel, diphthong, consonant or space emits the hub and
    opens the slot one column on and one row up: the move is put off to the
    next phoneme, whatever the hub carries. *)
Theorem C6_space_column {E} `{Sink Slot E}
  (state : Aligner E) (term : Slot) :
  open_slot state = Some term ->
  feed state (Some SpacePh)
  = (match state with
     | BeforeHigh _ emit => BeforeHigh term emit
     | High _ _ _ emit =>
         if stranded term
         then BeforeHigh (blank (x term + 1) (y term) true)
                         (emit <~ set_center "m" (set_empty false term))
         else BeforeHigh term emit
     | AfterHigh _ _ _ emit =>
         BeforeHigh (blank (x term + 1) (y term) true) (emit <~ term)
     | Low _ _ _ emit => AfterLow term nothing nothing emit
     | AfterLow _ _ _ emit =>
         High (blank (x term + 1) (y term - 1) true) nothing nothing
              (emit <~ term)
     | AlignerEnd emit => AlignerEnd (close emit)
     end)
  /\ (exists next,
      open_slot (feed state (Some SpacePh)) = Some next
      /\ x next = (x term + (if space_advances state then 1 else 0))%Z
      /\ (match state with
          | High _ _ _ _ => space_advances state = stranded term
          | AfterHigh _ _ _ _ | AfterLow _ _ _ _ => space_advances state = true
          | _ => space_advances state = false
          end)
      /\ if space_advances state
         then next = blank (x term + 1)
                           (if is_low state then y term - 1 else y term) true
              /\ output state (Some SpacePh)
                 = [Some (match state with
                          | High _ _ _ _ =>
                              set_center "m" (set_empty false term)
                          | _ => term
                          end)]
         else next = term /\ output state (Some SpacePh) = [])
  /\ (forall p emitted,
      match state, p with
      | Low _ _ _ _, Vowel first | Low _ _ _ _, Diphthong first _ =>
          emitted = set_east first (set_empty false term)
      | Low _ _ _ _, Consonant _ | Low _ _ _ _, SpacePh => emitted = term
      | _, _ => False
      end ->
      exists next,
        open_slot (feed (feed state (Some SpacePh)) (Some p)) = Some next
        /\ x next = (x term + 1)%Z /\ y next = (y term - 1)%Z
        /\ output (feed state (Some SpacePh)) (Some p) = [Some emitted]).
Proof.
  intros Ho.
  destruct state; try discriminate; cbn in Ho; injection Ho as <-.
  all: split; [|split].
  all: try (intros p emitted Hp; destruct p; try contradiction;
            subst emitted; unfold output; cbn;
            rewrite ?spread_nothing;
            eexists; (split; [reflexivity|]); cbn;
            repeat split; reflexivity).
  all: try (cbn; unfold stranded;
            repeat match goal with
              | |- context [if ?b then _ else _] => destruct b eqn:?; cbn
              end; reflexivity).
  all: unfold output; cbn; unfold stranded;
    repeat match goal with
      | |- context [if ?b then _ else _] => destruct b eqn:?; cbn
      end;
    eexists; (split; [reflexivity|]); cbn;
    repeat split; try reflexivity; lia.
Qed.

Lemma C6_space_column_witness :
  let hub := set_north "e" (blank 0 1 false) in
  let emitted := [Some (set_south "a" (blank 0 0 false))] in
  let state := Low hub nothing (centered "m") emitted in
  state = feed_all (aligner []) (map Some (phonemes (chars "ae")))
  /\ open_slot state = Some hub
  /\ stranded hub = true
  /\ feed state (Some SpacePh) = AfterLow hub nothing nothing emitted
  /\ output state (Some SpacePh) = []
  /\ exists next,
      open_slot (feed (feed state (Some SpacePh)) (Some (Consonant "m")))
        = Some next
      /\ x next = 1%Z /\ y next = 0%Z
      /\ output (feed state (Some SpacePh)) (Some (Consonant "m"))
         = [Some hub].
Proof.
  split; [vm_compute; reflexivity|].
  split; [reflexivity|]. split; [reflexivity|].
  destruct (C6_space_column
              (Low (set_north "e" (blank 0 1 false)) nothing (centered "m")
                   [Some (set_south "a" (blank 0 0 false))])
              (term := set_north "e" (blank 0 1 false)) eq_refl)
    as [Hs [[next [Ho [Hx [Ha Hn]]]] Hd]].
  split; [exact Hs|]. cbn in Hn. split; [apply Hn|].
  exact (Hd (Consonant "m") _ eq_refl).
Defined.

(** C6 does not hold as stated: after the text ["m"] the hub carries no
    west or north attachment, yet a space moves the aligner one column on
    at once, and ["m n"] is laid out in two columns of the same row, with
    no west or north attachment on either slot. *)
Lemma C6_counterexample :
  let after_m :=
    feed_all (aligner (@nil (option Slot))) (map Some (phonemes (chars "m"))) in
  (exists term next,
      open_slot after_m = Some term /\ stranded term = false
      /\ open_slot (feed after_m (Some SpacePh)) = Some next
      /\ x next = (x term + 1)%Z)
  /\ parse (chars "m n")
     = [set_center "m" (blank 0 0 false); set_center "n" (blank 1 0 false)]
  /\ Forall (fun term => stranded term = false) (parse (chars "m n")).
Proof.
  split; [|split].
  - eexists; eexists; repeat split; vm_compute; reflexivity.
  - vm_compute; reflexivity.
  - vm_compute; repeat constructor.
Qed.

(** ** Unexpected characters *)

Lemma among_app c l1 l2 : among c (l1 ++ l2) = among c l1 || among c l2.
Proof. destruct c as [s|]; [apply existsb_app | reflexivity]. Qed.

(** The semivowels are letters the lexer knows. *)
Lemma unexpected_wy c :
  unexpected c && negb (among c ["w"; "y"]) = unexpected c.
Proof.
  destruct c as [s|]; [|reflexivity]. cbn [among existsb].
  destruct (String.eqb_spec s "w") as [->|]; [reflexivity|].
  destruct (String.eqb_spec s "y") as [->|]; [reflexivity|].
  cbn [orb negb]. apply andb_true_r.
Qed.

Ltac decide_unmatched :=
  unfold unmatched, absorbs, unexpected, favorConsonant_labels;
  rewrite ?among_app;
  repeat match goal with
    | Hn : isnull ?c = _ |- context [isnull ?c] => rewrite Hn
    | Ha : among ?c ?l = _ |- context [among ?c ?l] => rewrite Ha
    end;
  cbn [negb andb orb];
  rewrite ?orb_true_r, ?andb_false_r; cbn [negb andb orb].

Section LexerErrors.
Context {E : Type} `{Sink Phoneme E}.

Lemma complains_more emit p c bad r :
    errors_in [p] = [] -> complains (emit <~ p) c bad r ->
    complains emit c bad r.
  Proof.
    intros Hp [phs [He Herr]]. exists (p :: phs). split; [exact He|].
    change (p :: phs) with ([p] ++ phs). unfold errors_in in *.
    rewrite flat_map_app, Hp. exact Herr.
  Qed.

Lemma lex_body (state : Lexer E) character :
    Some (lex state character)
    = dispatch (fun s c => Some (lex s c)) state character.
  Proof. symmetry. apply lex_dispatch. Qed.

Lemma lex_k (emit : E) :
    lex (FavorConsonant emit) (Some "k") = AfterGK emit "k".
  Proof. reflexivity. Qed.

Lemma lex_k_s (emit : E) :
    lex (AfterGK emit "k") (Some "s") = AfterS (emit <~ Consonant "k").
  Proof. reflexivity. Qed.

Lemma lex_k_w (emit : E) :
    lex (AfterGK emit "k") (Some "w")
    = MaybeDiphthong (emit <~ Consonant "k") "w".
  Proof. reflexivity. Qed.

Ltac leaf_complains :=
    match goal with
    | |- Some _ = Some _ -> _ =>
        let Hr := fresh in intros Hr; injection Hr as ->
    end;
    unfold complains, ending;
    repeat match goal with
      | Hn : isnull ?c = _ |- context [isnull ?c] => rewrite Hn
      end;
    first [ exists []; split; [reflexivity|]
          | eexists (cons _ nil); split; [reflexivity|]
          | eexists (cons _ (cons _ nil)); split; [reflexivity|] ];
    reflexivity.

Lemma favorConsonant_complains emit first :
    complains emit first (unexpected first) (lex (FavorConsonant emit) first).
  Proof.
    generalize (lex_body (FavorConsonant emit) first).
    cbn [dispatch]. unfold favorConsonant, close.
    rewrite lex_k, lex_k_s.
    chain; decide_unmatched; leaf_complains.
  Qed.

Ltac pass_on :=
    match goal with
    | |- _ = favorVowel ?f ?e ?c -> _ =>
        change (favorVowel f e c) with (dispatch f (FavorVowel e) c)
    | |- _ = favorConsonant ?f ?e ?c -> _ =>
        change (favorConsonant f e c) with (dispatch f (FavorConsonant e) c)
    end;
    rewrite <- lex_body;
    let Hr := fresh in intros Hr; injection Hr as ->.

Ltac own_rule :=
    unfold unmatched, absorbs;
    repeat match goal with
      | Hn : isnull ?c = _ |- context [isnull ?c] => rewrite Hn
      | Ha : among ?c ?l = _ |- context [among ?c ?l] => rewrite Ha
      end;
    cbn [negb andb orb];
    rewrite ?orb_true_r, ?andb_false_r, ?andb_true_r; cbn [negb andb orb];
    rewrite ?andb_false_r, ?andb_true_r.

Lemma favorVowel_complains emit letter :
    complains emit letter (unmatched (FavorVowel emit) letter)
              (lex (FavorVowel emit) letter).
  Proof.
    generalize (lex_body (FavorVowel emit) letter).
    cbn [dispatch]. unfold favorVowel. chain; own_rule.
    - assert (Hn : isnull letter = false) by (destruct letter; easy).
      leaf_complains.
    - pass_on. apply favorConsonant_complains.
  Qed.

Lemma maybeDiphthong_complains emit first second :
    complains emit second (unmatched (MaybeDiphthong emit first) second)
              (lex (MaybeDiphthong emit first) second).
  Proof.
    generalize (lex_body (MaybeDiphthong emit first) second).
    cbn [dispatch]. unfold maybeDiphthong, close. chain; own_rule;
      try leaf_complains.
    pass_on. apply complains_more with (p := Vowel first); [reflexivity|].
    apply favorConsonant_complains.
  Qed.

  (** An unexpected character is none that [maybeDiphthong] looks for. *)
Lemma unexpected_passes (emit : E) first c :
    unexpected c = true -> absorbs (MaybeDiphthong emit first) c = false.
  Proof.
    destruct c as [s|]; [|discriminate].
    unfold unexpected, favorConsonant_labels.
    cbn [isnull negb andb among app existsb absorbs]. intros Hu.
    apply negb_true_iff in Hu.
    repeat (apply orb_false_elim in Hu; let Hs := fresh in destruct Hu as [Hs Hu]).
    repeat match goal with
      | Hs : (s =? _)%string = false |- _ => rewrite Hs; clear Hs
      end.
    reflexivity.
  Qed.

  (** Every call of a lexer closure emits an error phoneme exactly when
      the character matches no rule, and then the complaint about it. *)
Lemma lex_complains (state : Lexer E) c :
    complains (lexer_emit state) c (unmatched state c) (lex state c).
  Proof.
    destruct state; cbn [lexer_emit];
      try apply favorVowel_complains;
      try apply maybeDiphthong_complains;
      match goal with
      | |- complains _ _ _ (lex ?s _) => generalize (lex_body s c)
      end;
      cbn [dispatch].
    - (* favorConsonant *)
      change (favorConsonant (fun s c0 => Some (lex s c0)) emit c)
        with (dispatch (fun s c0 => Some (lex s c0)) (FavorConsonant emit) c).
      rewrite <- lex_body. intros _. own_rule.
      apply favorConsonant_complains.
    - (* 'q' *)
      unfold afterQ. rewrite lex_k, lex_k_w.
      destruct (among c ["u"]) eqn:Hu;
        [|destruct (among c ["w"]) eqn:Hw]; cbn [negb andb]; own_rule.
      + assert (Hn : isnull c = false) by (destruct c; easy).
        leaf_complains.
      + assert (Hn : isnull c = false) by (destruct c; easy).
        leaf_complains.
      + intros Hr; injection Hr as ->.
        apply complains_more with (p := Consonant "k"); [reflexivity|].
        assert (Hm := maybeDiphthong_complains (emit <~ Consonant "k") "w" c).
        unfold unmatched in Hm.
        destruct (unexpected c) eqn:Hx; cbn [andb] in Hm |- *; [|exact Hm].
        rewrite (unexpected_passes (emit <~ Consonant "k") "w" c Hx) in Hm.
        exact Hm.
    - unfold afterGK; chain; own_rule;
        [assert (Hn : isnull c = false) by (destruct c; easy); leaf_complains|].
      pass_on. eapply complains_more; cycle 1;
        [generalize (favorVowel_complains (emit <~ Consonant first) c); own_rule; rewrite ?unexpected_wy; exact id
        |reflexivity].
    - unfold afterC; chain; own_rule;
        [assert (Hn : isnull c = false) by (destruct c; easy); leaf_complains|].
      pass_on. eapply complains_more; cycle 1;
        [generalize (favorVowel_complains (emit <~ Consonant "k") c); own_rule; rewrite ?unexpected_wy; exact id
        |reflexivity].
    - unfold afterN; chain; own_rule;
        [assert (Hn : isnull c = false) by (destruct c; easy); leaf_complains|].
      pass_on. eapply complains_more; cycle 1;
        [generalize (favorVowel_complains (emit <~ Consonant first) c); own_rule; rewrite ?unexpected_wy; exact id
        |reflexivity].
    - unfold afterB; chain; own_rule;
        [assert (Hn : isnull c = false) by (destruct c; easy); leaf_complains|].
      pass_on. eapply complains_more; cycle 1;
        [generalize (favorVowel_complains (emit <~ Consonant first) c); own_rule; rewrite ?unexpected_wy; exact id
        |reflexivity].
    - unfold afterP; chain; own_rule;
        [assert (Hn : isnull c = false) by (destruct c; easy); leaf_complains|].
      pass_on. eapply complains_more; cycle 1;
        [generalize (favorVowel_complains (emit <~ Consonant first) c); own_rule; rewrite ?unexpected_wy; exact id
        |reflexivity].
    - unfold afterT; chain; own_rule;
        [assert (Hn : isnull c = false) by (destruct c; easy); leaf_complains|].
      pass_on. eapply complains_more; cycle 1;
        [generalize (favorVowel_complains (emit <~ Consonant first) c); own_rule; rewrite ?unexpected_wy; exact id
        |reflexivity].
    - unfold afterD; chain; own_rule;
        [assert (Hn : isnull c = false) by (destruct c; easy); leaf_complains|].
      pass_on. eapply complains_more; cycle 1;
        [generalize (favorVowel_complains (emit <~ Consonant first) c); own_rule; rewrite ?unexpected_wy; exact id
        |reflexivity].
    - unfold afterS; chain; own_rule;
        [assert (Hn : isnull c = false) by (destruct c; easy); leaf_complains|].
      pass_on. eapply complains_more; cycle 1;
        [generalize (favorVowel_complains (emit <~ Consonant "s") c); own_rule; rewrite ?unexpected_wy; exact id
        |reflexivity].
    - unfold afterSC; chain; own_rule;
        [assert (Hn : isnull c = false) by (destruct c; easy); leaf_complains|].
      pass_on. eapply complains_more; cycle 1;
        [eapply complains_more; cycle 1;
         [generalize (favorVowel_complains
                        (emit <~ Consonant "s" <~ Consonant "k") c);
          own_rule; rewrite ?unexpected_wy; exact id
         |reflexivity]
        |reflexivity].
    - unfold space; chain; own_rule;
        [assert (Hn : isnull c = false) by (destruct c; easy); leaf_complains|].
      pass_on. apply favorConsonant_complains.
  Qed.
End LexerErrors.

Lemma errors_in_app p1 p2 : errors_in (p1 ++ p2) = errors_in p1 ++ errors_in p2.
Proof. apply flat_map_app. Qed.

Lemma run_complains text : forall s : Lexer (list (option Phoneme)),
  exists phs,
    lexer_emit (run s text) = lexer_emit s ++ map Some phs
    /\ errors_in phs = map (fun c => complaint (Some c)) (rejected s text).
Proof.
  induction text as [|c text IH]; intros s.
  - exists []. cbn. rewrite app_nil_r. auto.
  - cbn [run fold_left rejected].
    destruct (lex_complains s (Some c)) as [p1 [He1 Hr1]].
    destruct (IH (lex s (Some c))) as [p2 [He2 Hr2]].
    exists (p1 ++ p2). split.
    + unfold run in He2. rewrite He2, He1, feed_all_recorder.
      cbn [ending isnull]. rewrite app_nil_r, map_app. symmetry.
      apply app_assoc.
    + rewrite errors_in_app, Hr1, Hr2, map_app.
      destruct (unmatched s (Some c)); reflexivity.
Qed.

(** The error phonemes of a text are the complaints about its unexpected
    characters, one each, in order. *)
Lemma phonemes_complaints text :
  errors_in (phonemes text)
  = map (fun c => complaint (Some c)) (unexpected_characters text).
Proof.
  unfold phonemes, lexed, unexpected_characters.
  destruct (run_complains text (FavorConsonant [])) as [p1 [He1 Hr1]].
  destruct (lex_complains (run (FavorConsonant []) text) null)
    as [p2 [He2 Hr2]].
  rewrite He2, He1, feed_all_recorder. cbn [lexer_emit app ending isnull null].
  rewrite app_assoc, <- map_app.
  rewrite somes_app, somes_map_Some. cbn [somes flat_map]. rewrite app_nil_r.
  rewrite errors_in_app, Hr1, Hr2. unfold unmatched, unexpected.
  cbn [null isnull negb andb]. apply app_nil_r.
Qed.

(** ** Errors *)

Lemma error_appended {E} `{Sink Slot E} (state : Aligner E) msg :
  live state ->
  feed state (Some (Error msg)) = reopen (fun t => appendError t msg) state
  /\ output state (Some (Error msg)) = [].
Proof. intros Hl. destruct state; try contradiction; split; reflexivity. Qed.

Lemma errors_step {E} `{Sink Slot E} (state : Aligner E) p :
  live state ->
  flat_map errors_of (somes (output state (Some p)))
    ++ open_errors (feed state (Some p))
  = open_errors state ++ errors_in [p].
Proof.
  intros Hl. unfold output, open_errors, errors_in.
  transitions state p; unfold errors_of; cbn;
    rewrite ?app_nil_r; reflexivity.
Qed.

Lemma errors_end {E} `{Sink Slot E} (state : Aligner E) :
  live state ->
  flat_map errors_of (somes (output state None)) = open_errors state.
Proof.
  intros Hl. unfold output, open_errors.
  destruct state; try contradiction; cbn; apply app_nil_r.
Qed.

Lemma aligned_errors phs : forall state : Aligner (list (option Slot)),
  live state ->
  flat_map errors_of (somes (aligner_emit (feed_all state (map Some phs))))
    ++ open_errors (feed_all state (map Some phs))
  = flat_map errors_of (somes (aligner_emit state))
    ++ open_errors state ++ errors_in phs.
Proof.
  induction phs as [|p phs IH]; intros state Hl.
  - cbn. rewrite app_nil_r. reflexivity.
  - cbn [map feed_all fold_left].
    unfold feed_all in IH. rewrite (IH _ (live_feed state p Hl)).
    rewrite feed_output, somes_app, flat_map_app, <- app_assoc.
    f_equal. rewrite app_assoc, (errors_step state p Hl), <- app_assoc.
    f_equal. unfold errors_in. cbn [flat_map]. rewrite app_nil_r.
    reflexivity.
Qed.

Lemma parse_errors text :
  flat_map errors_of (parse text) = errors_in (phonemes text).
Proof.
  rewrite <- parse_aligned.
  destruct (lexed_shape text) as [-> _].
  unfold aligned. rewrite feed_all_snoc, feed_output, somes_app, flat_map_app.
  destruct (aligned_phonemes (phonemes text) (aligner []) I) as [Hl _].
  rewrite (errors_end _ Hl).
  rewrite (aligned_errors (phonemes text) (aligner []) I). reflexivity.
Qed.

Lemma lexable_errors phs :
  Forall lexable phs ->
  Forall (fun e => exists c, e = ("unexpected " ++ c)%string) (errors_in phs).
Proof.
  induction 1 as [|p phs Hp _ IH]; [constructor|].
  unfold errors_in. cbn [flat_map]. apply Forall_app. split; [|exact IH].
  destruct p; constructor; [exact Hp | constructor].
Qed.

Lemma filter_of_slot (l : list Slot) :
  map slot (filter (fun g => negb (is_empty g)) (map of_slot l))
  = filter occupied l.
Proof.
  induction l as [|s l IH]; [reflexivity|].
  cbn [map filter]. unfold is_empty at 1. cbn [of_slot slot].
  fold (occupied s). destruct (occupied s); cbn [map]; rewrite IH; reflexivity.
Qed.

(** Dropping the empty slots loses no message when every slot that carries
    one is occupied. *)
Lemma occupied_errors (l : list Slot) :
  Forall (fun s => occupied s = true \/ errors_of s = []) l ->
  flat_map errors_of (filter occupied l) = flat_map errors_of l.
Proof.
  induction 1 as [|s l [Hs|Hs] _ IH]; [reflexivity| |]; cbn [filter flat_map].
  - rewrite Hs. cbn [flat_map]. rewrite IH. reflexivity.
  - rewrite Hs. destruct (occupied s); cbn [flat_map];
      rewrite IH, ?Hs; reflexivity.
Qed.

(** C3, as the code has it.  For every input, [parse] runs to its end: the
    callback is called with the slots the aligner emitted and the collector
    is left at [eof].  A call of a lexer closure emits exactly one error
    phoneme when the character matches no rule of the closure nor of
    [favorConsonant], with the message ["unexpected " + character], and
    none otherwise; so the error phonemes of a text are the complaints
    about its unexpected characters, in order.  An error phoneme changes
    nothing but the open slot, to which the message is appended, and emits
    nothing; the messages on the slots [parse] returns are, in order, those
    complaints.  The glyphs that [transcribe] returns carry the messages of
    the slots that are not empty, which are all the messages when no empty
    slot carries one. *)
Theorem C3_errors_are_recorded {E} `{Sink Slot E} {L} `{Sink Phoneme L}
  (text : list string) (lexer : Lexer L) (c : Char)
  (state : Aligner E) (msg : string) :
  live state ->
  aligner_emit (lexer_emit (lex (run start text) null))
    = mkCollector EofFn (parse text)
  /\ (exists phs,
        lexer_emit (lex lexer c)
          = feed_all (lexer_emit lexer) (map Some phs ++ ending c)
        /\ errors_in phs = if unmatched lexer c then [complaint c] else [])
  /\ errors_in (phonemes text)
     = map (fun c => complaint (Some c)) (unexpected_characters text)
  /\ (feed state (Some (Error msg)) = reopen (fun t => appendError t msg) state
      /\ output state (Some (Error msg)) = [])
  /\ flat_map errors_of (parse text) = errors_in (phonemes text)
  /\ Forall (fun e => exists c, e = ("unexpected " ++ c)%string)
            (errors_in (phonemes text))
  /\ map (fun g => errors_of (slot g)) (glyphs (transcribe text))
     = map errors_of (filter occupied (parse text))
  /\ (Forall (fun s => occupied s = true \/ errors_of s = []) (parse text) ->
      flat_map (fun g => errors_of (slot g)) (glyphs (transcribe text))
      = map (fun c => complaint (Some c)) (unexpected_characters text)).
Proof.
  intros Hl.
  assert (Hg : map (fun g => errors_of (slot g)) (glyphs (transcribe text))
               = map errors_of (filter occupied (parse text))).
  { unfold transcribe. cbn [glyphs].
    rewrite (embelish_keeps errors_of (fun _ _ _ _ _ _ _ _ _ _ _ => eq_refl)).
    rewrite <- filter_of_slot, map_map. reflexivity. }
  split; [|split; [|split; [|split; [|split; [|split; [|split]]]]]].
  - rewrite pipeline_state, aligned_shape.
    unfold collector0. rewrite feed_all_snoc, collect_slots. reflexivity.
  - exact (lex_complains lexer c).
  - apply phonemes_complaints.
  - apply error_appended, Hl.
  - apply parse_errors.
  - apply lexable_errors, lexed_shape.
  - exact Hg.
  - intros Hocc.
    rewrite <- phonemes_complaints, <- parse_errors,
      <- (occupied_errors Hocc).
    rewrite !flat_map_concat_map, <- Hg. reflexivity.
Qed.

Lemma C3_errors_are_recorded_witness :
  let text := chars "a1b" in
  let lexer := MaybeDiphthong (@nil (option Phoneme)) "a" in
  let state := aligner (@nil (option Slot)) in
  live state
  /\ lexer = run (FavorConsonant []) (chars "a")
  /\ unmatched lexer (Some "1") = true
  /\ (exists phs,
        lexer_emit (lex lexer (Some "1")) = map Some phs
        /\ errors_in phs = ["unexpected 1"])
  /\ unexpected_characters text = ["1"]
  /\ parse text
     = [appendError (set_center "b" (set_north "a" (blank 0 0 false)))
                    "unexpected 1"]
  /\ flat_map errors_of (parse text) = ["unexpected 1"]
  /\ map (fun g => errors_of (slot g)) (glyphs (transcribe text))
     = [["unexpected 1"]]
  /\ flat_map (fun g => errors_of (slot g)) (glyphs (transcribe text))
     = ["unexpected 1"].
Proof.
  split; [exact I|].
  destruct (C3_errors_are_recorded (chars "a1b")
              (MaybeDiphthong (@nil (option Phoneme)) "a") (Some "1")
              (aligner (@nil (option Slot))) "unexpected 1" I)
    as [_ [[phs [Hs Hp]] [Hu [_ [He [_ [Hg Hall]]]]]]].
  split; [vm_compute; reflexivity|].
  split; [vm_compute; reflexivity|].
  split.
  { exists phs. split; [|exact Hp].
    rewrite Hs. cbn [ending isnull lexer_emit]. rewrite app_nil_r.
    apply feed_all_recorder. }
  split; [vm_compute; reflexivity|].
  split; [vm_compute; reflexivity|].
  split; [rewrite He, Hu; vm_compute; reflexivity|].
  split; [rewrite Hg; vm_compute; reflexivity|].
  rewrite Hall; [vm_compute; reflexivity|].
  vm_compute. repeat constructor.
Defined.

(** C3 does not hold as stated for the GlyphModel: in ["ma1"] the character
    [1] matches no rule and its message is appended to the slot open then,
    which is still empty when it is emitted, and [embelish] drops the empty
    slots; no glyph of the model carries a message.  For ["1"] the model
    has no glyph at all. *)
Lemma C3_counterexample :
  unexpected_characters (chars "ma1") = ["1"]
  /\ parse (chars "ma1")
     = [set_south "a" (set_center "m" (blank 0 0 false));
        appendError (blank 0 1 true) "unexpected 1"]
  /\ map slot (glyphs (transcribe (chars "ma1")))
     = [set_south "a" (set_center "m" (blank 0 0 false))]
  /\ (unexpected_characters (chars "1") = ["1"]
      /\ parse (chars "1") = [appendError (blank 0 0 true) "unexpected 1"]
      /\ glyphs (transcribe (chars "1")) = [])
  /\ ~ (forall text,
         unexpected_characters text <> [] ->
         Exists (fun g => errors_of (slot g) <> [])
                (glyphs (transcribe text))).
Proof.
  split; [vm_compute; reflexivity|].
  split; [vm_compute; reflexivity|].
  split; [vm_compute; reflexivity|].
  split; [repeat split; vm_compute; reflexivity|].
  intros Hall.
  assert (Hex := Hall (chars "1") ltac:(vm_compute; discriminate)).
  vm_compute in Hex. inversion Hex.
Qed.

(** ** Digraphs *)

(** C4, as the code has it.  The text ["ph"] gives the single consonant
    [f], the text ["sch"] the single consonant [sh]; the text ["qu"] gives
    the consonant [k] followed by the vowel phoneme [w] (the [u] is consumed
    and gives no phoneme): after [k] the lexer favours vowels and reads the
    [w] that ['q'] supplies as one.  The same holds for any continuation
    wherever the lexer favours consonants. *)
Theorem C4_digraph_precedence {E} `{Sink Phoneme E} (emit : E) :
  phonemes (chars "ph") = [Consonant "f"]
  /\ phonemes (chars "qu") = [Consonant "k"; Vowel "w"]
  /\ phonemes (chars "sch") = [Consonant "sh"]
  /\ lex (lex (FavorConsonant emit) (Some "p")) (Some "h")
     = FavorVowel (emit <~ Consonant "f")
  /\ lex (lex (FavorConsonant emit) (Some "q")) (Some "u")
     = MaybeDiphthong (emit <~ Consonant "k") "w"
  /\ lex (lex (lex (FavorConsonant emit) (Some "s")) (Some "c")) (Some "h")
     = FavorVowel (emit <~ Consonant "sh").
Proof. repeat split; vm_compute; reflexivity. Qed.

(** C4 does not hold as stated: the second phoneme of ["qu"] is not the
    consonant [w]. *)
Lemma C4_counterexample :
  phonemes (chars "qu") <> [Consonant "k"; Consonant "w"].
Proof. vm_compute. discriminate. Qed.

(** ** Vowel symbols *)

(** C9, as the code has it.  Every vowel phoneme the lexer emits carries a
    symbol among [e, i, y, a, o, u, w], and so do both halves of every
    diphthong. *)
Theorem C9_vowel_symbols (text : list string) :
  Forall vowels_known (phonemes text).
Proof.
  destruct (lexed_shape text) as [_ Hl].
  apply (Forall_impl vowels_known) with (2 := Hl).
  intros [] Hp; cbn in *; trivial.
Qed.

(** C9 does not hold as stated: [w] after a consonant is a vowel. *)
Lemma C9_counterexample :
  In (Vowel "w") (phonemes (chars "mw"))
  /\ ~ In "w" ["e"; "i"; "y"; "a"; "o"; "u"].
Proof.
  split; [vm_compute; auto|].
  cbn. intros H. repeat (destruct H as [H|H]; [discriminate|]). exact H.
Qed.

(** ** A vowel on its own *)

(** C2, as the code has it.  A text of one vowel letter [e], [i], [a], [o]
    or [u] gives one glyph, at the origin, with the vowel to the north, no
    center and the one stroke [<vowel>-north-inner]: the placeholder [m] is
    armed for a vowel that would follow and dropped at the end of the text.
    The letter [y] on its own is read as a consonant. *)
Theorem C2_single_vowel (v : string) :
  In v ["e"; "i"; "y"; "a"; "o"; "u"] ->
  transcribe [v]
  = if (v =? "y")%string
    then mkModel [mkGlyph (set_center "y" (blank 0 0 false))
                          ["consonantal-y"]]
                 (mkSize 1 1)
    else mkModel [mkGlyph (set_north v (blank 0 0 false))
                          [(v ++ "-north-inner")%string]]
                 (mkSize 1 1).
Proof.
  intros Hv. cbn [In] in Hv.
  repeat (destruct Hv as [<-|Hv]; [vm_compute; reflexivity|]).
  contradiction.
Qed.

Lemma C2_single_vowel_witness :
  In "a" ["e"; "i"; "y"; "a"; "o"; "u"]
  /\ transcribe (chars "a")
     = mkModel [mkGlyph (set_north "a" (blank 0 0 false)) ["a-north-inner"]]
               (mkSize 1 1).
Proof.
  split; [cbn; auto|].
  apply (@C2_single_vowel "a"). cbn; auto.
Defined.

(** C2 does not hold as stated: no glyph of the text ["a"] has the center
    [m] or a stroke of its feature set. *)
Lemma C2_counterexample :
  Forall (fun g => center (slot g) <> Some "m" /\ has "labial" g = false)
         (glyphs (transcribe (chars "a"))).
Proof. vm_compute. repeat constructor. discriminate. Qed.

(** ** Running the embellisher again *)

Lemma add_present name g : has name g = true -> add name g = g.
Proof. unfold add. intros ->. reflexivity. Qed.

Lemma add_all_present names g :
  forallb (fun f => has f g) names = true -> add_all names g = g.
Proof.
  induction names as [|n names IH]; [reflexivity|].
  cbn [forallb add_all fold_left]. intros Hall.
  apply andb_prop in Hall. destruct Hall as [Hn Hall].
  rewrite (add_present _ _ Hn). apply IH, Hall.
Qed.

Lemma filter_all {A} (p : A -> bool) l :
  forallb p l = true -> filter p l = l.
Proof.
  induction l as [|a l IH]; [reflexivity|].
  cbn [forallb filter]. intros Hall.
  apply andb_prop in Hall. destruct Hall as [-> Hall].
  f_equal. apply IH, Hall.
Qed.

Lemma same_absent v : truthy v = true -> same v None = false.
Proof. destruct v; [reflexivity | discriminate]. Qed.

Ltac named_parts Hn :=
  unfold named in Hn; cbn [io] in Hn;
  repeat (apply andb_prop in Hn; destruct Hn as [Hn ?]).

(** A named glyph with no neighbour to its right is left as it is. *)
Lemma name_strokes_last g :
  named g = true -> name_strokes g None = (g, None).
Proof.
  intros Hn. named_parts Hn.
  unfold name_strokes. cbn [io next_west next_north].
  repeat match goal with
    | Ht : implb (truthy ?v) _ = true |- context [truthy ?v] =>
        destruct (truthy v) eqn:?; cbn [implb] in Ht;
        [rewrite ?same_absent by assumption; cbn [andb];
         rewrite (add_present _ _ Ht) |]
    end; reflexivity.
Qed.

(** A named glyph with no resolvable merge to its right is left as it is,
    and so is its neighbour. *)
Lemma name_strokes_settled g next :
  named g = true -> mergeable g next = false ->
  name_strokes g (Some next) = (g, Some next).
Proof.
  intros Hn Hm. named_parts Hn.
  unfold mergeable in Hm. cbn [io fst snd] in Hm.
  apply orb_false_elim in Hm. destruct Hm as [He Hs].
  unfold name_strokes. cbn [io next_west next_north].
  repeat match goal with
    | Ht : implb (truthy ?v) _ = true |- context [truthy ?v] =>
        destruct (truthy v) eqn:?; cbn [implb] in Ht;
        [cbn [andb] in He, Hs; cbn [next_west next_north];
         rewrite ?He, ?Hs; rewrite (add_present _ _ Ht) |]
    end; reflexivity.
Qed.

Lemma name_from_settled rest : forall g,
  forallb named (g :: rest) = true -> no_merges (g :: rest) = true ->
  name_from g rest = g :: rest.
Proof.
  induction rest as [|next rest IH]; intros g Hn Hm.
  - cbn [name_from]. cbn [forallb] in Hn. apply andb_prop in Hn.
    rewrite (name_strokes_last g (proj1 Hn)). reflexivity.
  - cbn [forallb] in Hn. apply andb_prop in Hn. destruct Hn as [Hg Hn].
    cbn [no_merges] in Hm. apply andb_prop in Hm. destruct Hm as [Hgm Hm].
    apply negb_true_iff in Hgm.
    cbn [name_from]. rewrite (name_strokes_settled g next Hg Hgm).
    f_equal. apply IH; assumption.
Qed.

(** C8, as the code has it.  The embellisher is a no-op on a sequence with
    no empty slot and no resolvable merge in which every glyph already
    carries the features of its consonant and the simple stroke name of
    each of its attachments. *)
Theorem C8_embelish_noop (gs : list Glyph) :
  no_empty gs = true ->
  forallb named gs = true ->
  no_merges gs = true ->
  embelish gs = gs.
Proof.
  intros He Hn Hm. unfold embelish.
  rewrite (filter_all _ gs He).
  assert (Hf : map (fun g => add_all (features (center (slot g))) g) gs = gs).
  { clear He Hm. induction gs as [|g gs IH]; [reflexivity|].
    cbn [forallb] in Hn. apply andb_prop in Hn. destruct Hn as [Hg Hn].
    cbn [map]. rewrite (IH Hn). f_equal.
    apply add_all_present. named_parts Hg. assumption. }
  rewrite Hf. destruct gs as [|g rest]; [reflexivity|].
  apply name_from_settled; assumption.
Qed.

Lemma C8_embelish_noop_witness :
  let gs := glyphs (transcribe (chars "mn")) in
  no_empty gs = true /\ forallb named gs = true /\ no_merges gs = true
  /\ embelish gs = gs.
Proof.
  split; [vm_compute; reflexivity|].
  split; [vm_compute; reflexivity|].
  split; [vm_compute; reflexivity|].
  apply (@C8_embelish_noop (glyphs (transcribe (chars "mn"))));
    vm_compute; reflexivity.
Defined.

(** C8 does not hold as stated: the output of the embellisher for the text
    ["mem"] has no empty slot and no resolvable merge left, and running the
    embellisher on it adds the stroke [e-south-inner] to the first glyph,
    whose south attachment the first run had merged into
    [e-south-inner-inner]. *)
Lemma C8_counterexample :
  let gs := embelish (map of_slot (parse (chars "mem"))) in
  no_empty gs = true /\ no_merges gs = true /\ embelish gs <> gs.
Proof.
  repeat split; try (vm_compute; reflexivity).
  vm_compute. discriminate.
Qed.


(** * Further properties *)

(** ** Spelling: letters that the lexer reads as other letters *)

Lemma run_app {E} `{Sink Phoneme E} (state : Lexer E) t1 t2 :
  run state (t1 ++ t2) = run (run state t1) t2.
Proof. apply fold_left_app. Qed.

Lemma final_cons {E} `{Sink Phoneme E} (state : Lexer E) c t :
  final state (c :: t) = final (lex state (Some c)) t.
Proof. reflexivity. Qed.

Lemma final_app {E} `{Sink Phoneme E} (state : Lexer E) t1 t2 :
  final state (t1 ++ t2) = final (run state t1) t2.
Proof. unfold final. rewrite run_app. reflexivity. Qed.

Lemma transcribe_final t t' :
  final start t = final start t' -> transcribe t = transcribe t'.
Proof.
  unfold final, transcribe, parse. cbv zeta. intros ->. reflexivity.
Qed.

Lemma phonemes_final t t' :
  final (FavorConsonant (@nil (option Phoneme))) t
  = final (FavorConsonant (@nil (option Phoneme))) t' ->
  phonemes t = phonemes t'.
Proof. unfold final, phonemes, lexed. intros ->. reflexivity. Qed.

(** Two spellings that leave every lexer closure in the same state give
    the same phonemes and the same model, wherever they stand in a text. *)
Lemma respell (a b : list string) :
  (forall E (S : Sink Phoneme E) (state : Lexer E) t,
      final state (a ++ t) = final state (b ++ t)) ->
  forall t1 t2,
    phonemes (t1 ++ a ++ t2) = phonemes (t1 ++ b ++ t2)
    /\ transcribe (t1 ++ a ++ t2) = transcribe (t1 ++ b ++ t2).
Proof.
  intros Hab t1 t2. split.
  - apply phonemes_final.
    rewrite (final_app _ t1 (a ++ t2)), (final_app _ t1 (b ++ t2)). apply Hab.
  - apply transcribe_final.
    rewrite (final_app _ t1 (a ++ t2)), (final_app _ t1 (b ++ t2)). apply Hab.
Qed.

Section Spelling.
Context {E : Type} `{Sink Phoneme E}.

Lemma lex_unfold (state : Lexer E) character :
    Some (lex state character)
    = dispatch (fun s c => Some (lex s c)) state character.
  Proof. symmetry. apply lex_dispatch. Qed.

Lemma lex_x (state : Lexer E) :
    lex state (Some "x") = lex (lex state (Some "k")) (Some "s").
  Proof. destruct state; vm_compute; reflexivity. Qed.

Lemma lex_ph (state : Lexer E) :
    lex (lex state (Some "p")) (Some "h") = lex state (Some "f").
  Proof. destruct state; vm_compute; reflexivity. Qed.

Lemma lex_bh (state : Lexer E) :
    lex (lex state (Some "b")) (Some "h") = lex state (Some "v").
  Proof. destruct state; vm_compute; reflexivity. Qed.

Lemma lex_c_after emit second :
    among second ["h"] = false ->
    lex (AfterC emit "c") second = lex (AfterGK emit "k") second.
  Proof.
    intros Hh.
    assert (Hs : Some (lex (AfterC emit "c") second)
                 = Some (lex (AfterGK emit "k") second)).
    { rewrite !lex_unfold. cbn [dispatch]. unfold afterC, afterGK.
      rewrite Hh. reflexivity. }
    injection Hs as Hs. exact Hs.
  Qed.

Lemma lex_sc_after emit second :
    among second ["h"] = false ->
    lex (AfterSC emit) second = lex (AfterGK (emit <~ Consonant "s") "k") second.
  Proof.
    intros Hh.
    assert (Hs : Some (lex (AfterSC emit) second)
                 = Some (lex (AfterGK (emit <~ Consonant "s") "k") second)).
    { rewrite !lex_unfold. cbn [dispatch]. unfold afterSC, afterGK.
      rewrite Hh. reflexivity. }
    injection Hs as Hs. exact Hs.
  Qed.

Lemma lex_c (state : Lexer E) second :
    among second ["h"] = false ->
    lex (lex state (Some "c")) second = lex (lex state (Some "k")) second.
  Proof.
    intros Hh.
    destruct state;
      try (apply (lex_c_after _ _ Hh)); apply (lex_sc_after _ _ Hh).
  Qed.

Lemma lex_q_kw (state : Lexer E) :
    exists emit,
      lex state (Some "q") = AfterQ emit
      /\ lex (lex state (Some "k")) (Some "w")
         = MaybeDiphthong (emit <~ Consonant "k") "w".
  Proof. destruct state; eexists; split; reflexivity. Qed.

Lemma lex_q (state : Lexer E) second :
    lex (lex state (Some "q")) second
    = if among second ["u"; "w"]
      then lex (lex state (Some "k")) (Some "w")
      else lex (lex (lex state (Some "k")) (Some "w")) second.
  Proof.
    destruct (lex_q_kw state) as [emit [-> ->]].
    assert (Hs : Some (lex (AfterQ emit) second)
                 = Some (if among second ["u"; "w"]
                         then MaybeDiphthong (emit <~ Consonant "k") "w"
                         else lex (MaybeDiphthong (emit <~ Consonant "k") "w")
                                  second)).
    { rewrite lex_unfold. cbn [dispatch]. unfold afterQ.
      change (lex (FavorConsonant emit) (Some "k")) with (AfterGK emit "k").
      change (lex (AfterGK emit "k") (Some "w"))
        with (MaybeDiphthong (emit <~ Consonant "k") "w").
      destruct second as [s|]; [|reflexivity].
      cbn [among existsb]. 
      destruct (s =? "u")%string, (s =? "w")%string; reflexivity. }
    injection Hs as Hs. exact Hs.
  Qed.

  (** Any closure called with a space or a line end becomes [space]. *)
Lemma lex_breaking (state : Lexer E) c :
    In c breaking -> exists emit, lex state (Some c) = Space emit.
  Proof.
    intros Hc. cbn in Hc.
    repeat (destruct Hc as [<-|Hc];
            [destruct state; eexists; reflexivity|]).
    contradiction.
  Qed.

Lemma lex_white (emit : E) c :
    In c white -> lex (Space emit) (Some c) = Space emit.
  Proof.
    intros Hc. cbn in Hc.
    repeat (destruct Hc as [<-|Hc]; [reflexivity|]).
    contradiction.
  Qed.
End Spelling.

(** X2.  The letter [x] is read as [ks]: replacing an [x] by [ks] anywhere
    in a text changes neither the phonemes nor the model. *)
Theorem X2_x_is_ks (t1 t2 : list string) :
  phonemes (t1 ++ "x" :: t2) = phonemes (t1 ++ "k" :: "s" :: t2)
  /\ transcribe (t1 ++ "x" :: t2) = transcribe (t1 ++ "k" :: "s" :: t2).
Proof.
  apply (respell ["x"] ["k"; "s"]). intros E S state t.
  cbn [app]. rewrite !final_cons, lex_x. reflexivity.
Qed.

(** X3.  The letter [q] is read as [kw], and a [u] or [w] right after it is
    dropped: the [w] is the vowel that the lexer reads after a consonant. *)
Theorem X3_q_is_kw (t1 t2 : list string) :
  phonemes (t1 ++ "q" :: t2) = phonemes (t1 ++ "k" :: "w" :: after_q t2)
  /\ transcribe (t1 ++ "q" :: t2)
     = transcribe (t1 ++ "k" :: "w" :: after_q t2).
Proof.
  assert (Hq : forall E (S : Sink Phoneme E) (state : Lexer E),
             final state ("q" :: t2) = final state ("k" :: "w" :: after_q t2)).
  { intros E S state. rewrite !final_cons.
    destruct t2 as [|c rest]; cbn [after_q].
    - unfold final. cbn [run fold_left]. rewrite lex_q. reflexivity.
    - rewrite final_cons, lex_q.
      destruct (among (Some c) ["u"; "w"]); [reflexivity|].
      rewrite final_cons. reflexivity. }
  split.
  - apply phonemes_final. rewrite !final_app. apply Hq.
  - apply transcribe_final. rewrite !final_app. apply Hq.
Qed.

(** X4.  The digraphs [ph] and [bh] are read as [f] and [v], wherever they
    stand in a text. *)
Theorem X4_ph_is_f_bh_is_v (t1 t2 : list string) :
  (phonemes (t1 ++ "p" :: "h" :: t2) = phonemes (t1 ++ "f" :: t2)
   /\ transcribe (t1 ++ "p" :: "h" :: t2) = transcribe (t1 ++ "f" :: t2))
  /\ (phonemes (t1 ++ "b" :: "h" :: t2) = phonemes (t1 ++ "v" :: t2)
      /\ transcribe (t1 ++ "b" :: "h" :: t2) = transcribe (t1 ++ "v" :: t2)).
Proof.
  split.
  - apply (respell ["p"; "h"] ["f"]). intros E S state t.
    cbn [app]. rewrite !final_cons, lex_ph. reflexivity.
  - apply (respell ["b"; "h"] ["v"]). intros E S state t.
    cbn [app]. rewrite !final_cons, lex_bh. reflexivity.
Qed.

(** X5.  A [c] that no [h] follows is read as [k]. *)
Theorem X5_c_is_k (t1 t2 : list string) :
  among (next_char t2) ["h"] = false ->
  phonemes (t1 ++ "c" :: t2) = phonemes (t1 ++ "k" :: t2)
  /\ transcribe (t1 ++ "c" :: t2) = transcribe (t1 ++ "k" :: t2).
Proof.
  intros Hh.
  assert (Hc : forall E (S : Sink Phoneme E) (state : Lexer E),
             final state ("c" :: t2) = final state ("k" :: t2)).
  { intros E S state. rewrite !final_cons.
    destruct t2 as [|c rest].
    - unfold final. cbn [run fold_left]. apply lex_c. reflexivity.
    - rewrite !final_cons, (lex_c state (Some c) Hh). reflexivity. }
  split.
  - apply phonemes_final. rewrite !final_app. apply Hc.
  - apply transcribe_final. rewrite !final_app. apply Hc.
Qed.

Lemma X5_c_is_k_witness :
  among (next_char ["a"; "t"]) ["h"] = false
  /\ phonemes (chars "cat") = phonemes (chars "kat")
  /\ transcribe (chars "cat") = transcribe (chars "kat").
Proof.
  split; [reflexivity|].
  apply (@X5_c_is_k [] ["a"; "t"]). reflexivity.
Defined.

(** X6.  White space after a space or a line end is absorbed: it changes
    neither the phonemes nor the model. *)
Theorem X6_white_space_absorbed (t1 t2 : list string) (c1 c2 : string) :
  In c1 breaking -> In c2 white ->
  phonemes (t1 ++ c1 :: c2 :: t2) = phonemes (t1 ++ c1 :: t2)
  /\ transcribe (t1 ++ c1 :: c2 :: t2) = transcribe (t1 ++ c1 :: t2).
Proof.
  intros H1 H2.
  apply (respell [c1; c2] [c1]). intros E S state t.
  cbn [app]. rewrite !final_cons.
  destruct (lex_breaking state H1) as [emit ->].
  rewrite (lex_white emit H2). reflexivity.
Qed.

Lemma X6_white_space_absorbed_witness :
  In " " breaking /\ In TAB white
  /\ transcribe ["m"; " "; TAB; "n"] = transcribe ["m"; " "; "n"].
Proof.
  split; [left; reflexivity|]. split; [do 3 right; left; reflexivity|].
  apply (@X6_white_space_absorbed ["m"] ["n"] " " TAB);
    [left; reflexivity | do 3 right; left; reflexivity].
Defined.

(** ** Texts with nothing to draw *)

Lemma idle_output {E} `{Sink Slot E} (state : Aligner E) p :
  quiet p = true -> idle state ->
  idle (feed state (Some p))
  /\ existsb occupied (somes (output state (Some p))) = false.
Proof.
  intros Hq Hi. unfold output.
  destruct state; try contradiction; cbn in Hi.
  destruct p; try discriminate; cbn; auto.
  split; [reflexivity|]. rewrite Hi. reflexivity.
Qed.

Lemma existsb_app_false {A} (f : A -> bool) l1 l2 :
  existsb f l1 = false -> existsb f l2 = false -> existsb f (l1 ++ l2) = false.
Proof. intros H1 H2. rewrite existsb_app, H1, H2. reflexivity. Qed.

Lemma aligned_quiet phs : forall state : Aligner (list (option Slot)),
  forallb quiet phs = true -> idle state ->
  existsb occupied (somes (aligner_emit state)) = false ->
  idle (feed_all state (map Some phs))
  /\ existsb occupied (somes (aligner_emit (feed_all state (map Some phs))))
     = false.
Proof.
  induction phs as [|p phs IH]; intros state Hq Hi He; [split; assumption|].
  cbn [forallb] in Hq. apply andb_prop in Hq. destruct Hq as [Hp Hq].
  destruct (idle_output state p Hp Hi) as [Hi' Ho].
  cbn [map feed_all fold_left]. apply IH; [exact Hq | exact Hi' |].
  rewrite feed_output, somes_app. apply existsb_app_false; assumption.
Qed.

Lemma sounded_feed (state : Aligner (list (option Slot))) phoneme :
  sounded state = true -> sounded (feed state phoneme) = true.
Proof.
  unfold sounded. rewrite feed_output, somes_app, existsb_app.
  destruct (existsb occupied (somes (aligner_emit state))); [reflexivity|].
  cbn [orb]. unfold output.
  destruct phoneme as [p|]; [transitions state p | destruct state; cbn];
    try discriminate; unfold occupied; cbn; intros Ho; rewrite ?Ho; cbn;
    rewrite ?orb_true_r; reflexivity.
Qed.

Lemma sounded_loud (state : Aligner (list (option Slot))) p :
  live state -> quiet p = false -> sounded (feed state (Some p)) = true.
Proof.
  intros Hl Hq. unfold sounded. rewrite feed_output, somes_app, existsb_app.
  unfold output.
  destruct state; try contradiction; destruct p; try discriminate; cbn;
    rewrite ?orb_true_r; reflexivity.
Qed.

Lemma sounded_feed_all phs : forall state : Aligner (list (option Slot)),
  sounded state = true -> sounded (feed_all state phs) = true.
Proof.
  induction phs as [|p phs IH]; intros state Hs; [exact Hs|].
  cbn [feed_all fold_left]. apply IH, sounded_feed, Hs.
Qed.

Lemma aligned_loud phs : forall state : Aligner (list (option Slot)),
  live state -> forallb quiet phs = false ->
  sounded (feed_all state (map Some phs)) = true.
Proof.
  induction phs as [|p phs IH]; intros state Hl Hq; [discriminate|].
  cbn [forallb] in Hq. cbn [map feed_all fold_left].
  destruct (quiet p) eqn:Hp.
  - apply IH; [apply live_feed, Hl | exact Hq].
  - apply (sounded_feed_all (map Some phs)), sounded_loud; assumption.
Qed.

Lemma glyphs_length text :
  List.length (glyphs (transcribe text))
  = List.length (filter occupied (parse text)).
Proof.
  unfold transcribe. cbn [glyphs].
  assert (Hk := embelish_keeps (fun _ => tt)
                  (fun _ _ _ _ _ _ _ _ _ _ _ => eq_refl)
                  (map of_slot (parse text))).
  apply (f_equal (@List.length unit)) in Hk. rewrite !length_map in Hk.
  rewrite Hk, <- filter_of_slot, length_map. reflexivity.
Qed.

Lemma filter_none {A} (f : A -> bool) l :
  existsb f l = false <-> filter f l = [].
Proof.
  induction l as [|a l IH]; [split; reflexivity|].
  cbn [existsb filter]. destruct (f a); cbn [orb]; [split; discriminate|].
  exact IH.
Qed.

(** The slots of a text hold something exactly when one of its phonemes is
    a consonant, a vowel or a diphthong. *)
Lemma parse_occupied text :
  existsb occupied (parse text) = negb (forallb quiet (phonemes text)).
Proof.
  rewrite <- parse_aligned. destruct (lexed_shape text) as [-> _].
  unfold aligned. rewrite feed_all_snoc.
  destruct (forallb quiet (phonemes text)) eqn:Hq; cbn [negb].
  - destruct (aligned_quiet (phonemes text) (aligner []) Hq eq_refl eq_refl)
      as [Hi He].
    rewrite feed_output, somes_app. apply existsb_app_false; [exact He|].
    destruct (feed_all (aligner []) (map Some (phonemes text)));
      try contradiction.
    cbn in Hi |- *. rewrite Hi. reflexivity.
  - assert (Hs := sounded_feed _ None
                    (aligned_loud (phonemes text) (aligner []) I Hq)).
    unfold sounded in Hs.
    destruct (aligned_phonemes (phonemes text) (aligner []) I) as [Hl _].
    destruct (live_open _ Hl) as [term Hterm].
    destruct (output_end _ Hterm) as [_ Hend].
    destruct (feed (feed_all (aligner []) (map Some (phonemes text))) None)
      eqn:Hf; try (exfalso; apply Hend; exact I).
    cbn [open_slot] in Hs. rewrite orb_false_r in Hs. exact Hs.
Qed.

Lemma blank_quiet (text : list string) :
  transcribe text = blank_model -> forallb quiet (phonemes text) = true.
Proof.
  assert (Ho := parse_occupied text).
  assert (Hlen := glyphs_length text).
  intros Ht. rewrite Ht in Hlen. cbn in Hlen.
  destruct (filter occupied (parse text)) eqn:Hf; [|discriminate].
  apply filter_none in Hf. rewrite Hf in Ho.
  destruct (forallb quiet (phonemes text)); [reflexivity | discriminate].
Qed.

Lemma quiet_blank (text : list string) :
  forallb quiet (phonemes text) = true -> transcribe text = blank_model.
Proof.
  assert (Ho := parse_occupied text).
  assert (Hlen := glyphs_length text).
  intros Hq. rewrite Hq in Ho. cbn [negb] in Ho.
  apply filter_none in Ho. rewrite Ho in Hlen. cbn in Hlen.
  unfold transcribe in *. cbn [glyphs] in Hlen.
  destruct (embelish (map of_slot (parse text))); [reflexivity|discriminate].
Qed.

(** X7.  [transcribe] returns no glyph, and then the size 1 by 1, exactly
    when the text has no consonant, vowel or diphthong phoneme: spaces, line
    ends and unexpected characters alone put nothing on the grid, and any
    other phoneme leaves a glyph. *)
Theorem X7_no_glyph_iff_quiet (text : list string) :
  transcribe text = blank_model <-> forallb quiet (phonemes text) = true.
Proof. split; [apply blank_quiet | apply quiet_blank]. Qed.

(** ** White space *)

Ltac shape :=
  first [ left; reflexivity
        | right; left; reflexivity
        | right; right; reflexivity ].

Lemma resting_lex state c :
  In c white -> resting state -> resting (lex state (Some c)).
Proof.
  intros Hc [log [Hs Hq]]. cbn in Hc.
  assert (Hq1 : forall p, quiet p = true ->
                forallb quiet (somes (log ++ [Some p])) = true).
  { intros p Hp. rewrite somes_app, forallb_app, Hq. cbn. rewrite Hp.
    reflexivity. }
  repeat (destruct Hc as [<-|Hc];
          [destruct Hs as [-> | [-> | ->]];
           first [ exists log; split; [shape | exact Hq]
                 | eexists; split; [shape | apply Hq1; reflexivity] ] |]).
  contradiction.
Qed.

Lemma resting_run text : forall state,
  Forall (fun c => In c white) text -> resting state ->
  resting (run state text).
Proof.
  induction text as [|c text IH]; intros state Hw Hr; [exact Hr|].
  inversion Hw; subst. cbn [run fold_left].
  apply IH; [assumption | apply resting_lex; assumption].
Qed.

(** X8.  A text of white space only (spaces, line feeds, carriage returns,
    tabs) gives the model with no glyph and the size 1 by 1. *)
Theorem X8_white_text_is_blank (text : list string) :
  Forall (fun c => In c white) text -> transcribe text = blank_model.
Proof.
  intros Hw. apply quiet_blank.
  destruct (@resting_run text (FavorConsonant []) Hw) as [log [Hs Hq]].
  { exists []. split; [left; reflexivity | reflexivity]. }
  assert (He : lexer_emit (lex (run (FavorConsonant []) text) null)
               = log ++ [None])
    by (destruct Hs as [-> | [-> | ->]]; reflexivity).
  unfold phonemes, lexed. rewrite He, somes_app. cbn [somes flat_map].
  rewrite app_nil_r. exact Hq.
Qed.

(** ** The consonants the lexer emits are those of the table *)

Lemma in_by_eqb s l : existsb (String.eqb s) l = true -> In s l.
Proof.
  intros Hex. apply existsb_exists in Hex. destruct Hex as [t [Hin Heq]].
  apply String.eqb_eq in Heq. subst. exact Hin.
Qed.

Ltac split_ors :=
  repeat match goal with
    | H : _ \/ _ |- _ => destruct H as [H|H]
    | H : False |- _ => contradiction
    | H : In _ (_ :: _) |- _ => cbn [In] in H
    | H : In _ [] |- _ => contradiction
    end.

Ltac symbol_goal :=
  repeat match goal with
    | Ha : among _ _ = true |- _ => apply among_in in Ha
    end;
  cbn [in_inventory holding] in *; split_ors;
  repeat match goal with
    | H : _ = str _ |- _ => rewrite <- H in *; clear H
    end;
  subst; try exact I; try reflexivity;
  try (apply in_by_eqb; reflexivity);
  try (left; reflexivity); try (right; left; reflexivity).

Section LexerInventory.
Context {E : Type} `{Sink Phoneme E}.

Lemma emits_known_more emit p c r :
    in_inventory p -> emits_known (emit <~ p) c r -> emits_known emit c r.
  Proof.
    intros Hp [phs [He [Hl Hh]]]. exists (p :: phs).
    split; [exact He|]. split; [constructor; assumption | exact Hh].
  Qed.

Lemma emits_known_then emit r1 c r2 s :
    emits_known emit (Some s) r1 -> emits_known (lexer_emit r1) c r2 ->
    emits_known emit c r2.
  Proof.
    intros [p1 [He1 [Hl1 _]]] [p2 [He2 [Hl2 Hh]]].
    exists (p1 ++ p2). split; [|split; [apply Forall_app; split|]]; trivial.
    rewrite He2, He1. cbn [ending isnull]. rewrite app_nil_r.
    rewrite map_app, <- app_assoc. symmetry. apply feed_all_app.
  Qed.

Lemma emits_known_ending emit c c' r :
    isnull c = isnull c' -> emits_known emit c r -> emits_known emit c' r.
  Proof. unfold emits_known, ending. intros <-. exact id. Qed.

Ltac leaf_known :=
    match goal with
    | |- Some _ = Some _ -> _ =>
        let Hr := fresh in intros Hr; injection Hr as <-
    end;
    unfold emits_known, ending;
    repeat match goal with
      | Hn : isnull ?c = _ |- context [isnull ?c] => rewrite Hn
      end;
    first [ exists []; split; [reflexivity|]
          | eexists (cons _ nil); split; [reflexivity|]
          | eexists (cons _ (cons _ nil)); split; [reflexivity|] ];
    (split; [repeat apply Forall_cons; try apply Forall_nil
           | cbn [holding]; trivial]).

Section Bodies.
Variable apply : Lexer E -> Char -> option (Lexer E).
Hypothesis apply_known :
      forall s c r, apply s c = Some r -> holding s ->
                    emits_known (lexer_emit s) c r.

Lemma favorConsonant_known emit first r :
      favorConsonant apply emit first = Some r -> emits_known emit first r.
    Proof.
      unfold favorConsonant, close; chain; try (leaf_known; symbol_goal; fail).
      destruct (apply (FavorConsonant emit) (Some "k")) as [k|] eqn:Hk;
        [|discriminate].
      intros Hs. apply apply_known in Hk; [|exact I].
      assert (Hpk : holding k) by (destruct Hk as [? [_ [_ ?]]]; assumption).
      apply apply_known in Hs; [|exact Hpk].
      apply emits_known_ending with (c := Some "s"); [symmetry; assumption|].
      eapply emits_known_then; eassumption.
    Qed.

Lemma favorVowel_known emit letter r :
      favorVowel apply emit letter = Some r -> emits_known emit letter r.
    Proof.
      unfold favorVowel; chain; [|apply favorConsonant_known].
      assert (Hn : isnull letter = false) by (destruct letter; easy).
      leaf_known; symbol_goal.
    Qed.

Lemma afterQ_known emit second r :
      afterQ apply emit second = Some r -> emits_known emit second r.
    Proof.
      unfold afterQ.
      destruct (apply (FavorConsonant emit) (Some "k")) as [k|] eqn:Hk;
        [|discriminate].
      destruct (apply k (Some "w")) as [next|] eqn:Hw; [|discriminate].
      apply apply_known in Hk; [|exact I].
      assert (Hpk : holding k) by (destruct Hk as [? [_ [_ ?]]]; assumption).
      apply apply_known in Hw; [|exact Hpk].
      assert (Hnext : emits_known emit (Some "w") next)
        by (eapply emits_known_then; eassumption).
      assert (Hpn : holding next)
        by (destruct Hw as [? [_ [_ ?]]]; assumption).
      destruct (among second ["u"]) eqn:Hu;
        [|destruct (among second ["w"]) eqn:Hw2]; cbn [negb andb].
      - intros Hr; injection Hr as <-.
        apply emits_known_ending with (c := Some "w"); [|assumption].
        destruct second; easy.
      - intros Hr; injection Hr as <-.
        apply emits_known_ending with (c := Some "w"); [|assumption].
        destruct second; easy.
      - intros Hr. apply apply_known in Hr; [|exact Hpn].
        eapply emits_known_then; eassumption.
    Qed.

Lemma digraph_known emit p (c : Char) r :
      in_inventory p ->
      favorVowel apply (emit <~ p) c = Some r -> emits_known emit c r.
    Proof.
      intros Hp Hr. apply emits_known_more with (p := p); [exact Hp|].
      apply favorVowel_known, Hr.
    Qed.

Lemma maybeDiphthong_known emit first second r :
      maybeDiphthong apply emit first second = Some r ->
      emits_known emit second r.
    Proof.
      unfold maybeDiphthong, close; chain;
        try (leaf_known; symbol_goal; fail).
      intros Hr. apply emits_known_more with (p := Vowel first); [exact I|].
      apply favorConsonant_known, Hr.
    Qed.

Lemma space_known emit letter r :
      space apply emit letter = Some r -> emits_known emit letter r.
    Proof.
      unfold space; chain; [|apply favorConsonant_known].
      assert (Hn : isnull letter = false) by (destruct letter; easy).
      leaf_known.
    Qed.
End Bodies.

Lemma call_known n : forall (s : Lexer E) c r,
    call n s c = Some r -> holding s -> emits_known (lexer_emit s) c r.
  Proof.
    induction n as [|n IH]; intros s c r; [discriminate|].
    rewrite call_S.
    destruct s; cbn [lexer_emit holding]; intros Hr Hp;
      try (revert Hr; apply (@favorConsonant_known (call n) IH); fail);
      try (revert Hr; apply (@favorVowel_known (call n) IH); fail);
      try (revert Hr; apply (@afterQ_known (call n) IH); fail);
      try (revert Hr; apply (@maybeDiphthong_known (call n) IH); fail);
      try (revert Hr; apply (@space_known (call n) IH); fail);
      revert Hr;
      unfold afterGK, afterC, afterN, afterB, afterP, afterT, afterD,
        afterS, afterSC; chain;
      try (assert (Hn : isnull c = false) by (destruct c; easy);
           leaf_known; symbol_goal; fail);
      try (apply (@digraph_known (call n) IH); symbol_goal; fail).
    intros Hr. apply emits_known_more with (p := Consonant "s");
      [symbol_goal|].
    revert Hr. apply (@digraph_known (call n) IH); symbol_goal.
  Qed.

Lemma lex_known (s : Lexer E) c :
    holding s -> emits_known (lexer_emit s) c (lex s c).
  Proof. apply call_known with (n := lexer_fuel), call_lex. Qed.
End LexerInventory.

Lemma run_known text : forall s : Lexer (list (option Phoneme)),
  holding s ->
  exists phs,
    lexer_emit (run s text) = lexer_emit s ++ map Some phs
    /\ Forall in_inventory phs /\ holding (run s text).
Proof.
  induction text as [|c text IH]; intros s Hs.
  - exists []. cbn. rewrite app_nil_r. auto.
  - cbn [run fold_left].
    destruct (lex_known s (Some c) Hs) as [p1 [He1 [Hl1 Hp1]]].
    destruct (IH _ Hp1) as [p2 [He2 [Hl2 Hp2]]].
    exists (p1 ++ p2). split; [|split; [apply Forall_app; split|]]; trivial.
    unfold run in He2. rewrite He2, He1, feed_all_recorder.
    cbn [ending isnull]. rewrite app_nil_r, map_app. symmetry.
    apply app_assoc.
Qed.

(** Every consonant phoneme of a text is a key of [consonantGlyphs]. *)
Lemma phonemes_in_inventory text : Forall in_inventory (phonemes text).
Proof.
  unfold phonemes, lexed.
  destruct (run_known text (FavorConsonant []) I) as [p1 [He1 [Hl1 Hp1]]].
  destruct (lex_known _ null Hp1) as [p2 [He2 [Hl2 _]]].
  rewrite He2, He1, feed_all_recorder. cbn [lexer_emit app ending isnull null].
  rewrite app_assoc, <- map_app.
  rewrite somes_app, somes_map_Some. cbn [somes flat_map]. rewrite app_nil_r.
  apply Forall_app; split; assumption.
Qed.

(** ** The symbols on the slots *)

Lemma symbols_blank a b e : slot_symbols (blank a b e).
Proof. repeat split. Qed.

Lemma symbols_xy a b : slot_symbols (xy a b).
Proof. repeat split. Qed.

Lemma symbols_set_empty v t : slot_symbols t -> slot_symbols (set_empty v t).
Proof. exact id. Qed.

Lemma symbols_appendError t e : slot_symbols t -> slot_symbols (appendError t e).
Proof. exact id. Qed.

Lemma symbols_set_center c t :
  In c consonant_symbols -> slot_symbols t -> slot_symbols (set_center c t).
Proof. intros Hc [_ Ht]. split; assumption. Qed.

Lemma symbols_set_north v t :
  In v vowel_symbols -> slot_symbols t -> slot_symbols (set_north v t).
Proof. intros Hv (Hc & _ & Hs & He & Hw). repeat split; assumption. Qed.

Lemma symbols_set_south v t :
  In v vowel_symbols -> slot_symbols t -> slot_symbols (set_south v t).
Proof. intros Hv (Hc & Hn & _ & He & Hw). repeat split; assumption. Qed.

Lemma symbols_set_east v t :
  In v vowel_symbols -> slot_symbols t -> slot_symbols (set_east v t).
Proof. intros Hv (Hc & Hn & Hs & _ & Hw). repeat split; assumption. Qed.

Lemma symbols_set_west v t :
  In v vowel_symbols -> slot_symbols t -> slot_symbols (set_west v t).
Proof. intros Hv (Hc & Hn & Hs & He & _). repeat split; assumption. Qed.

Lemma vowel_ok_override a b :
  vowel_ok a -> vowel_ok b -> vowel_ok (override a b).
Proof. destruct a; intros; assumption. Qed.

Lemma center_ok_override a b :
  center_ok a -> center_ok b -> center_ok (override a b).
Proof. destruct a; intros; assumption. Qed.

Lemma symbols_spread t c :
  slot_symbols t -> connector_symbols c -> slot_symbols (spread t c).
Proof.
  intros (Hc & Hn & Hs & He & Hw) (Hc' & Hn' & Hs' & He' & Hw').
  repeat split; cbn;
    first [apply center_ok_override | apply vowel_ok_override]; assumption.
Qed.

Lemma symbols_nothing : connector_symbols nothing.
Proof. repeat split. Qed.

Lemma symbols_centered_m : connector_symbols (centered "m").
Proof. repeat split. apply in_by_eqb. reflexivity. Qed.

Lemma symbols_northward v : In v vowel_symbols -> connector_symbols (northward v).
Proof. intros Hv. repeat split. exact Hv. Qed.

Lemma symbols_southward v : In v vowel_symbols -> connector_symbols (southward v).
Proof. intros Hv. repeat split. exact Hv. Qed.

Lemma symbols_eastward v : In v vowel_symbols -> connector_symbols (eastward v).
Proof. intros Hv. repeat split. exact Hv. Qed.

Lemma symbols_westward v : In v vowel_symbols -> connector_symbols (westward v).
Proof. intros Hv. repeat split. exact Hv. Qed.

Lemma e_is_vowel : In "e" vowel_symbols.
Proof. left. reflexivity. Qed.

Lemma m_is_consonant : In "m" consonant_symbols.
Proof. apply in_by_eqb. reflexivity. Qed.

Create HintDb symbols.
#[local] Hint Resolve symbols_blank symbols_xy symbols_set_empty
  symbols_appendError symbols_set_center symbols_set_north symbols_set_south
  symbols_set_east symbols_set_west symbols_spread symbols_nothing
  symbols_centered_m symbols_northward symbols_southward symbols_eastward
  symbols_westward e_is_vowel m_is_consonant Forall_cons Forall_nil : symbols.

Ltac step_aligner :=
  cbn [feed align beforeHigh high afterHigh low afterLow alignerEnd output
       amap aligner_emit recorder somes flat_map app close];
  repeat match goal with
    | |- context [if ?b then _ else _] => destruct b eqn:?
    end;
  cbn [feed align beforeHigh high afterHigh low afterLow alignerEnd output
       amap aligner_emit recorder somes flat_map app close].

Lemma symbols_feed {E} `{Sink Slot E} (state : Aligner E) phoneme :
  match phoneme with Some p => phoneme_symbols p | None => True end ->
  state_symbols state ->
  state_symbols (feed state phoneme)
  /\ Forall slot_symbols (somes (output state phoneme)).
Proof.
  intros Hp Hs. unfold output.
  destruct phoneme as [p|];
    [destruct Hp as [Hi Hv]; destruct p;
     cbn [in_inventory vowels_known] in Hi, Hv|];
    destruct state; cbn [state_symbols] in Hs; step_aligner;
    cbn [state_symbols]; intuition (auto 7 with symbols).
Qed.

Lemma aligned_symbols phs : forall state : Aligner (list (option Slot)),
  Forall phoneme_symbols phs ->
  state_symbols state ->
  Forall slot_symbols (somes (aligner_emit state)) ->
  state_symbols (feed_all state (map Some phs))
  /\ Forall slot_symbols (somes (aligner_emit (feed_all state (map Some phs)))).
Proof.
  induction phs as [|p phs IH]; intros state Hp Hs Hl; [split; assumption|].
  inversion Hp as [|? ? Hp1 Hp2]; subst.
  destruct (@symbols_feed _ _ state (Some p) Hp1 Hs) as [Hs' Ho].
  cbn [map feed_all fold_left]. apply IH; [exact Hp2 | exact Hs' |].
  rewrite feed_output, somes_app. apply Forall_app. split; assumption.
Qed.

Lemma phonemes_symbols text : Forall phoneme_symbols (phonemes text).
Proof.
  assert (Hi := phonemes_in_inventory text).
  destruct (lexed_shape text) as [_ Hl].
  rewrite Forall_forall in *. intros p Hp. split; [apply Hi, Hp|].
  specialize (Hl p Hp). destruct p; cbn in *; trivial.
Qed.

(** Every slot of a text has a center of the table, if any, and vowel
    symbols as attachments. *)
Lemma parse_symbols text : Forall slot_symbols (parse text).
Proof.
  rewrite <- parse_aligned. destruct (lexed_shape text) as [-> _].
  unfold aligned. rewrite feed_all_snoc, feed_output, somes_app.
  destruct (@aligned_symbols (phonemes text) (aligner [])
              (phonemes_symbols text)) as [Hs Hl];
    [apply symbols_blank | constructor |].
  apply Forall_app. split; [exact Hl|].
  apply (@symbols_feed _ _ _ None I Hs).
Qed.

(** ** What the embellisher does to a glyph *)

Lemma has_in name g : has name g = true <-> In name (strokes g).
Proof.
  unfold has. rewrite existsb_exists. split.
  - intros [s [Hin Heq]]. apply String.eqb_eq in Heq. subst. exact Hin.
  - intros Hin. exists name. split; [exact Hin | apply String.eqb_refl].
Qed.

Lemma strokes_add s name g :
  In s (strokes (add name g)) <-> s = name \/ In s (strokes g).
Proof.
  unfold add. destruct (has name g) eqn:Hh.
  - split; [auto|]. intros [->|Hin]; [apply has_in, Hh | exact Hin].
  - cbn [strokes]. rewrite in_app_iff. cbn [In]. intuition.
Qed.

Lemma refines_refl g : refines g g.
Proof.
  unfold refines, kept_or_deleted. repeat split; auto. apply incl_refl.
Qed.

Lemma refines_trans g1 g2 g3 : refines g1 g2 -> refines g2 g3 -> refines g1 g3.
Proof.
  unfold refines, kept_or_deleted.
  intros (Hx & Hy & He & Hc & Hea & Hs & Her & Hw & Hn & Hi)
         (Hx' & Hy' & He' & Hc' & Hea' & Hs' & Her' & Hw' & Hn' & Hi').
  repeat split; try congruence.
  - destruct Hw' as [->| ->]; auto.
  - destruct Hn' as [->| ->]; auto.
  - eapply incl_tran; eassumption.
Qed.

Lemma refines_add g g1 name : refines g g1 -> refines g (add name g1).
Proof.
  intros Hr. apply (refines_trans Hr).
  unfold refines, kept_or_deleted. rewrite slot_add. repeat split; auto.
  intros s Hs. apply strokes_add. right. exact Hs.
Qed.

Lemma refines_add_all names : forall g g1,
  refines g g1 -> refines g (add_all names g1).
Proof.
  induction names as [|n names IH]; intros g g1 Hr; [exact Hr|].
  cbn [add_all fold_left]. apply IH, refines_add, Hr.
Qed.

Lemma refines_delete_west g g1 : refines g g1 -> refines g (delete_west g1).
Proof.
  intros Hr. apply (refines_trans Hr).
  unfold refines, kept_or_deleted. destruct g1 as [[] ?]. cbn.
  repeat split; auto. apply incl_refl.
Qed.

Lemma refines_delete_north g g1 : refines g g1 -> refines g (delete_north g1).
Proof.
  intros Hr. apply (refines_trans Hr).
  unfold refines, kept_or_deleted. destruct g1 as [[] ?]. cbn.
  repeat split; auto. apply incl_refl.
Qed.

Lemma name_strokes_refines g next :
  refines g (fst (name_strokes g next))
  /\ match next, snd (name_strokes g next) with
     | Some n, Some n' => refines n n'
     | None, None => True
     | _, _ => False
     end.
Proof.
  destruct next as [n|]; unfold name_strokes;
    cbn [io next_west next_north];
    repeat match goal with
      | |- context [if ?b then _ else _] =>
          match type of b with bool => destruct b end
      end;
    cbn [fst snd option_map];
    (split; [repeat apply refines_add; apply refines_refl|]);
    trivial;
    repeat first [apply refines_delete_north | apply refines_delete_west];
    apply refines_refl.
Qed.

Lemma name_from_refines rest : forall g0 g,
  refines g0 g -> Forall2 refines (g0 :: rest) (name_from g rest).
Proof.
  induction rest as [|next rest IH]; intros g0 g Hr; cbn [name_from].
  - constructor; [|constructor].
    apply (refines_trans Hr), name_strokes_refines.
  - destruct (name_strokes_refines g (Some next)) as [Hg Hn].
    destruct (name_strokes g (Some next)) as [g' mutated].
    cbn [fst snd] in Hg, Hn. destruct mutated as [n'|]; [|contradiction].
    constructor; [apply (refines_trans Hr), Hg|].
    apply IH, Hn.
Qed.

Lemma name_all_refines l : Forall2 refines l (name_all l).
Proof.
  destruct l as [|g rest]; [constructor|].
  apply name_from_refines, refines_refl.
Qed.

Lemma featured_add_all names : forall g,
  incl names (strokes (add_all names g)).
Proof.
  induction names as [|n names IH]; intros g s Hs; [contradiction|].
  cbn [add_all fold_left]. destruct Hs as [<-|Hs].
  - assert (Hr := refines_add_all names (refines_refl (add n g))).
    destruct Hr as (_ & _ & _ & _ & _ & _ & _ & _ & _ & Hi).
    apply Hi, strokes_add. left. reflexivity.
  - apply IH, Hs.
Qed.

Lemma featured_refines g g' : refines g g' -> featured g -> featured g'.
Proof.
  unfold featured. intros (_ & _ & _ & Hc & _ & _ & _ & _ & _ & Hi) Hf.
  rewrite Hc. eapply incl_tran; eassumption.
Qed.

Lemma Forall2_refines_trans l1 : forall l2 l3,
  Forall2 refines l1 l2 -> Forall2 refines l2 l3 -> Forall2 refines l1 l3.
Proof.
  induction l1 as [|g l1 IH]; intros l2 l3 H1 H2.
  - inversion H1; subst. inversion H2; subst. constructor.
  - inversion H1; subst. inversion H2; subst. constructor.
    + eapply refines_trans; eassumption.
    + eapply IH; eassumption.
Qed.

Lemma Forall2_featured l l' :
  Forall2 refines l l' -> Forall featured l -> Forall featured l'.
Proof.
  induction 1 as [|g g' l l' Hr _ IH]; intros Hf; [constructor|].
  inversion Hf; subst. constructor; [|auto].
  eapply featured_refines; eassumption.
Qed.

Lemma Forall2_In_right {A B} (R : A -> B -> Prop) l l' b :
  Forall2 R l l' -> In b l' -> exists a, In a l /\ R a b.
Proof.
  induction 1 as [|a0 b0 l l' Hr _ IH]; intros Hin; [contradiction|].
  destruct Hin as [<-|Hin].
  - exists a0. split; [left; reflexivity | exact Hr].
  - destruct (IH Hin) as [a [Ha HR]]. exists a. split; [right|]; assumption.
Qed.

(** The first [map] of [embelish]: the features of the center are added. *)
Lemma features_added kept :
  let l := map (fun g => add_all (features (center (slot g))) g) kept in
  Forall2 refines kept l /\ Forall featured l.
Proof.
  cbv zeta. induction kept as [|g kept [IH1 IH2]]; [split; constructor|].
  cbn [map]. split; constructor; trivial.
  - apply refines_add_all, refines_refl.
  - unfold featured. rewrite slot_add_all. apply featured_add_all.
Qed.

(** X13.  The embellisher returns the glyphs that are not empty, in their
    order, each with its position, [empty] flag, center, east and south
    attachments and errors unchanged and with its strokes kept; all it ever
    removes is a west or north attachment.  Each glyph it returns carries
    every feature that [consonantGlyphs] lists for its center. *)
Theorem X13_embelish_refines (gs : list Glyph) :
  Forall2 refines (filter (fun g => negb (is_empty g)) gs) (embelish gs)
  /\ Forall featured (embelish gs).
Proof.
  unfold embelish.
  destruct (features_added (filter (fun g => negb (is_empty g)) gs))
    as [H1 H2].
  split.
  - eapply Forall2_refines_trans; [exact H1 | apply name_all_refines].
  - eapply Forall2_featured; [apply name_all_refines | exact H2].
Qed.

(** ** Consonants and their features *)

Lemma features_nonempty c :
  In c consonant_symbols -> features (Some c) <> [].
Proof.
  unfold consonant_symbols. cbn [map fst consonantGlyphs In].
  intros Hc. split_ors; subst; vm_compute; discriminate.
Qed.

Lemma in_of_slot g l :
  In g (filter (fun g => negb (is_empty g)) (map of_slot l)) ->
  exists s, In s l /\ g = of_slot s.
Proof.
  intros Hin. apply filter_In in Hin. destruct Hin as [Hin _].
  apply in_map_iff in Hin. destruct Hin as [s [<- Hs]]. eauto.
Qed.

(** X9.  For every text, every glyph with a center has a center that is a
    key of [consonantGlyphs] (a consonant of the lexer or the placeholder
    [m]); the feature set of that key is not empty and the glyph carries
    all of it. *)
Theorem X9_centers_are_resolved (text : list string) :
  Forall resolved (glyphs (transcribe text)).
Proof.
  unfold transcribe. cbn [glyphs]. unfold embelish.
  set (kept := filter (fun g => negb (is_empty g)) (map of_slot (parse text))).
  destruct (features_added kept) as [H1 H2].
  set (l := map (fun g => add_all (features (center (slot g))) g) kept) in *.
  assert (H3 := name_all_refines l).
  assert (Hall := Forall2_featured H3 H2).
  assert (Href := Forall2_refines_trans H1 H3).
  apply Forall_forall. intros g' Hg'.
  rewrite Forall_forall in Hall. specialize (Hall g' Hg').
  destruct (Forall2_In_right g' Href Hg') as [g [Hg Hr]].
  destruct (in_of_slot _ _ Hg) as [s [Hs Heq]]. subst g.
  assert (Hsym := parse_symbols text). rewrite Forall_forall in Hsym.
  destruct (Hsym s Hs) as [Hc _].
  destruct Hr as (_ & _ & _ & Hcenter & _). cbn [of_slot slot] in Hcenter.
  unfold resolved, featured in *. rewrite Hcenter in *.
  destruct (center s) as [c|]; [|exact I]. cbn in Hc.
  split; [exact Hc|]. split; [apply features_nonempty, Hc | exact Hall].
Qed.

(** ** Stroke names and the labels of the SVG file *)

(** Every simple stroke name of a vowel symbol is a label. *)
Lemma known_simple v d o :
  In v vowel_symbols -> In d directions -> In o openness ->
  known (v ++ d ++ o) = true.
Proof.
  unfold vowel_symbols, directions, openness. intros Hv Hd Ho.
  split_ors; subst; reflexivity.
Qed.

Lemma known_attachment a d (b : bool) :
  truthy a = true -> vowel_ok a -> In d directions ->
  known (text_of a ++ d ++ (if b then "outer" else "inner")) = true.
Proof.
  intros Ht Hv Hd. destruct a as [v|]; [|discriminate]. cbn in Hv |- *.
  apply known_simple; [exact Hv | exact Hd |].
  destruct b; [right; left | left]; reflexivity.
Qed.

Lemma labelled_add name g :
  known name = true -> labelled g -> labelled (add name g).
Proof.
  intros Hk Hl s Hs. rewrite slot_add. apply strokes_add in Hs.
  destruct Hs as [->|Hs]; [right; exact Hk | apply Hl, Hs].
Qed.

Lemma labelled_add_all names : forall g,
  incl names (features (center (slot g))) -> labelled g ->
  labelled (add_all names g).
Proof.
  induction names as [|n names IH]; intros g Hi Hl; [exact Hl|].
  cbn [add_all fold_left]. apply IH.
  - rewrite slot_add. intros s Hs. apply Hi. right. exact Hs.
  - intros s Hs. rewrite slot_add. apply strokes_add in Hs.
    destruct Hs as [->|Hs]; [left; apply Hi; left; reflexivity | apply Hl, Hs].
Qed.

Lemma labelled_delete_west g : labelled g -> labelled (delete_west g).
Proof. destruct g as [[] ?]. exact id. Qed.

Lemma labelled_delete_north g : labelled g -> labelled (delete_north g).
Proof. destruct g as [[] ?]. exact id. Qed.

Lemma symbols_delete_west g :
  slot_symbols (slot g) -> slot_symbols (slot (delete_west g)).
Proof.
  destruct g as [[] ?]. cbn. intros (Hc & Hn & Hs & He & _).
  repeat split; assumption.
Qed.

Lemma symbols_delete_north g :
  slot_symbols (slot g) -> slot_symbols (slot (delete_north g)).
Proof.
  destruct g as [[] ?]. cbn. intros (Hc & _ & Hs & He & Hw).
  repeat split; assumption.
Qed.

Ltac direction :=
  unfold directions;
  first [ left; reflexivity | right; left; reflexivity
        | right; right; left; reflexivity
        | right; right; right; left; reflexivity ].

Lemma name_strokes_labelled g next :
  slot_symbols (slot g) -> labelled g ->
  labelled (fst (name_strokes g next))
  /\ match next, snd (name_strokes g next) with
     | Some n, Some n' =>
         (labelled n -> labelled n')
         /\ (slot_symbols (slot n) -> slot_symbols (slot n'))
     | None, None => True
     | _, _ => False
     end.
Proof.
  intros (Hc & Hn & Hs & He & Hw) Hl.
  destruct next as [n|]; unfold name_strokes;
    cbn [io next_west next_north];
    repeat match goal with
      | |- context [if ?b then _ else _] =>
          match b with
          | truthy _ => destruct b eqn:?
          | andb _ _ => destruct b eqn:?
          end
      end;
    cbn [fst snd option_map];
    repeat match goal with
      | Ha : andb _ _ = true |- _ =>
          apply andb_prop in Ha; destruct Ha as [_ Ha]
      end;
    (split;
     [ repeat (apply labelled_add;
               [first [ assumption
                      | apply known_attachment; [assumption | assumption
                                                 | direction] ] |]);
       exact Hl
     | trivial ]);
    split; intros Hyp;
    repeat first [ apply labelled_delete_north | apply labelled_delete_west
                 | apply symbols_delete_north | apply symbols_delete_west ];
    exact Hyp.
Qed.

Lemma name_from_labelled rest : forall g,
  slot_symbols (slot g) -> labelled g ->
  Forall (fun n => slot_symbols (slot n) /\ labelled n) rest ->
  Forall labelled (name_from g rest).
Proof.
  induction rest as [|next rest IH]; intros g Hs Hl Hrest; cbn [name_from].
  - constructor; [|constructor]. apply name_strokes_labelled; assumption.
  - destruct (name_strokes_labelled (Some next) Hs Hl) as [Hg Hn].
    destruct (name_strokes g (Some next)) as [g' mutated].
    cbn [fst snd] in Hg, Hn. destruct mutated as [n'|]; [|contradiction].
    inversion Hrest as [|? ? [Hns Hnl] Hrest']; subst.
    destruct Hn as [Hn1 Hn2].
    constructor; [exact Hg|]. apply IH; auto.
Qed.

(** X10.  For every text, every stroke name of every glyph is a feature of
    the glyph's consonant or one of the labels listed in [vowelGlyphs]: the
    embellisher never makes up a vowel stroke that the list does not
    have. *)
Theorem X10_strokes_are_labels (text : list string) :
  Forall labelled (glyphs (transcribe text)).
Proof.
  unfold transcribe. cbn [glyphs]. unfold embelish.
  assert (Hsym := parse_symbols text).
  set (kept := filter (fun g => negb (is_empty g)) (map of_slot (parse text))).
  assert (Hkept : Forall (fun n => slot_symbols (slot n) /\ labelled n)
                    (map (fun g => add_all (features (center (slot g))) g)
                         kept)).
  { apply Forall_forall. intros g Hg. apply in_map_iff in Hg.
    destruct Hg as [g0 [<- Hg0]]. unfold kept in Hg0.
    destruct (in_of_slot _ _ Hg0) as [s [Hs Heq]]. subst g0.
    rewrite Forall_forall in Hsym. split.
    - rewrite slot_add_all. apply Hsym, Hs.
    - apply labelled_add_all; [apply incl_refl|]. intros ? []. }
  destruct (map _ kept) as [|g rest]; [constructor|].
  inversion Hkept as [|? ? [Hs Hl] Hrest]; subst.
  apply name_from_labelled; assumption.
Qed.

(** ** Reading order *)

Ltac slot_fields :=
  unfold blank, xy, set_empty, set_center, set_north, set_south, set_east,
    set_west, spread, appendError, cell;
  cbn [x y fst snd].

Ltac parity := Z.div_mod_to_equations; lia.

Lemma before_trans p q r : before p q -> before q r -> before p r.
Proof. unfold before. lia. Qed.

Lemma before_irrefl p : ~ before p p.
Proof. unfold before. lia. Qed.

(** One phoneme: the open slot stays in its cell and nothing is emitted,
    or the slot is emitted from its cell and the aligner opens a slot in a
    later cell. *)
Lemma step_cells {E} `{Sink Slot E} (state : Aligner E) p term :
  placed state -> open_slot state = Some term ->
  exists term',
    open_slot (feed state (Some p)) = Some term'
    /\ placed (feed state (Some p))
    /\ ((somes (output state (Some p)) = [] /\ cell term' = cell term)
        \/ (exists s, somes (output state (Some p)) = [s]
                      /\ cell s = cell term
                      /\ before (cell term) (cell term'))).
Proof.
  intros Hp Ho. unfold output.
  destruct state; try discriminate; cbn in Ho; injection Ho as <-;
    cbn [placed] in Hp; destruct p; step_aligner;
    cbn [open_slot placed]; eexists; (split; [reflexivity|]);
    (split; [slot_fields; parity|]);
    first [ left; split; reflexivity
          | right; eexists; split; [reflexivity|];
            split; [reflexivity|]; unfold before; slot_fields; parity ].
Qed.

Lemma sorted_snoc {A} (R : A -> A -> Prop) l b :
  StronglySorted R l -> Forall (fun a => R a b) l ->
  StronglySorted R (l ++ [b]).
Proof.
  induction 1 as [|a l Hs IH Ha]; intros Hb; cbn [app].
  - constructor; constructor.
  - inversion Hb; subst. constructor; [apply IH; assumption|].
    apply Forall_app. split; [exact Ha | constructor; [assumption|constructor]].
Qed.

Lemma sorted_map_filter {A B} (R : B -> B -> Prop) (f : A -> B) p l :
  StronglySorted R (map f l) -> StronglySorted R (map f (filter p l)).
Proof.
  induction l as [|a l IH]; intros Hs; [constructor|].
  cbn [map] in Hs. inversion Hs as [|? ? Hs' Ha]; subst.
  cbn [filter]. destruct (p a); [|apply IH, Hs'].
  cbn [map]. constructor; [apply IH, Hs'|].
  rewrite Forall_forall in *. intros b Hb. apply Ha.
  apply in_map_iff in Hb. destruct Hb as [a' [<- Ha']].
  apply filter_In in Ha'. apply in_map, Ha'.
Qed.

Lemma sorted_NoDup {A} (R : A -> A -> Prop) l :
  (forall a, ~ R a a) -> StronglySorted R l -> NoDup l.
Proof.
  intros Hirr. induction 1 as [|a l Hs IH Ha]; constructor; [|exact IH].
  intros Hin. rewrite Forall_forall in Ha. exact (Hirr a (Ha a Hin)).
Qed.

Lemma aligned_sorted phs : forall (state : Aligner (list (option Slot))) term,
  placed state -> open_slot state = Some term ->
  StronglySorted before (map cell (somes (aligner_emit state))) ->
  Forall (fun c => before c (cell term)) (map cell (somes (aligner_emit state))) ->
  exists term',
    open_slot (feed_all state (map Some phs)) = Some term'
    /\ StronglySorted before
         (map cell (somes (aligner_emit (feed_all state (map Some phs)))))
    /\ Forall (fun c => before c (cell term'))
              (map cell (somes (aligner_emit (feed_all state (map Some phs))))).
Proof.
  induction phs as [|p phs IH]; intros state term Hp Ho Hs Hb.
  - exists term. auto.
  - cbn [map feed_all fold_left].
    destruct (step_cells state p Hp Ho) as [term' [Ho' [Hp' Hstep]]].
    apply (IH _ term' Hp' Ho'); rewrite feed_output, somes_app, map_app.
    + destruct Hstep as [[-> _] | [s [-> [Hc _]]]]; cbn [map].
      * rewrite app_nil_r. exact Hs.
      * apply sorted_snoc; [exact Hs|]. rewrite Hc. exact Hb.
    + destruct Hstep as [[-> Hc] | [s [-> [Hc Hlt]]]]; cbn [map].
      * rewrite app_nil_r, Hc. exact Hb.
      * apply Forall_app. split.
        -- eapply Forall_impl; [|exact Hb]. intros c Hcb. cbv beta in Hcb.
           exact (before_trans Hcb Hlt).
        -- constructor; [rewrite Hc; exact Hlt | constructor].
Qed.

(** The slots of a text come in reading order. *)
Lemma parse_sorted text : StronglySorted before (map cell (parse text)).
Proof.
  rewrite <- parse_aligned. destruct (lexed_shape text) as [-> _].
  unfold aligned. rewrite feed_all_snoc, feed_output, somes_app, map_app.
  destruct (@aligned_sorted (phonemes text) (aligner []) (blank 0 0 true))
    as [term [Ho [Hs Hb]]];
    [cbn; split; [lia | reflexivity] | reflexivity | constructor
    | constructor |].
  destruct (output_end _ Ho) as [-> _]. cbn [somes flat_map app map].
  apply sorted_snoc; assumption.
Qed.

(** X11.  For every text the glyphs come in reading order (line by line,
    column by column, the high cell of a column before its low cell); in
    particular no two glyphs of a model share a grid cell. *)
Theorem X11_cells_are_distinct (text : list string) :
  StronglySorted before (map coords (glyphs (transcribe text)))
  /\ NoDup (map coords (glyphs (transcribe text))).
Proof.
  assert (Hs : StronglySorted before (map coords (glyphs (transcribe text)))).
  { unfold transcribe. cbn [glyphs].
    change (map coords) with (map (fun n => cell (slot n))).
    rewrite (embelish_keeps cell (fun _ _ _ _ _ _ _ _ _ _ _ => eq_refl)).
    rewrite <- (map_map slot cell), filter_of_slot.
    apply sorted_map_filter, parse_sorted. }
  split; [exact Hs|].
  apply (sorted_NoDup before_irrefl Hs).
Qed.

(** ** Diagnostics and layout *)

Lemma shape_feed {E} `{Sink Slot E} (state : Aligner E) phoneme :
  shape (feed state phoneme) = shape (feed (shape state) phoneme).
Proof.
  unfold shape.
  destruct phoneme as [p|]; [destruct state, p | destruct state]; cbn;
    repeat match goal with
      | |- context [if ?b then _ else _] =>
          match type of b with bool => destruct b end
      end; reflexivity.
Qed.

Lemma output_shape {E} `{Sink Slot E} (state : Aligner E) phoneme :
  map (option_map forget) (output state phoneme)
  = map (option_map forget) (output (shape state) phoneme).
Proof.
  unfold shape, output.
  destruct phoneme as [p|]; [destruct state, p | destruct state]; cbn;
    repeat match goal with
      | |- context [if ?b then _ else _] =>
          match type of b with bool => destruct b end
      end; reflexivity.
Qed.

Lemma shape_error {E} `{Sink Slot E} (state : Aligner E) e :
  live state ->
  shape (feed state (Some (Error e))) = shape state
  /\ output state (Some (Error e)) = [].
Proof. intros Hl. destruct state; try contradiction; split; reflexivity. Qed.

Lemma aligned_outputs evs : forall state : Aligner (list (option Slot)),
  aligner_emit (feed_all state evs) = aligner_emit state ++ outputs state evs.
Proof.
  induction evs as [|ev evs IH]; intros state.
  - cbn. rewrite app_nil_r. reflexivity.
  - cbn [feed_all fold_left outputs]. unfold feed_all in IH.
    rewrite IH, feed_output. symmetry. apply app_assoc.
Qed.

Lemma outputs_alike evs :
  forall {E E'} {S : Sink Slot E} {S' : Sink Slot E'}
         (state : Aligner E) (state' : Aligner E'),
    shape state = shape state' ->
    map (option_map forget) (outputs state evs)
    = map (option_map forget) (outputs state' evs).
Proof.
  induction evs as [|ev evs IH]; intros E E' S S' state state' Hs;
    [reflexivity|].
  cbn [outputs]. rewrite !map_app. f_equal.
  - rewrite (output_shape state), (output_shape state'), Hs. reflexivity.
  - apply IH. rewrite (shape_feed state), (shape_feed state'), Hs.
    reflexivity.
Qed.

Lemma outputs_without_errors phs :
  forall {E} {S : Sink Slot E} (state : Aligner E),
    live state ->
    map (option_map forget) (outputs state (map Some phs ++ [None]))
    = map (option_map forget)
          (outputs state
             (map Some (filter (fun p => negb (is_error p)) phs) ++ [None])).
Proof.
  induction phs as [|p phs IH]; intros E S state Hl; [reflexivity|].
  cbn [map app outputs filter].
  destruct p; cbn [is_error negb map app outputs]; rewrite ?map_app;
    try (f_equal; apply IH, live_feed, Hl).
  destruct (shape_error state error Hl) as [Hs ->]. cbn [map app].
  rewrite (IH _ _ _ (live_feed state (Error error) Hl)).
  apply outputs_alike, Hs.
Qed.

(** X12.  Error phonemes do not touch the layout: the slots the aligner
    emits for a sequence of phonemes are, error lists apart, the slots it
    emits for the sequence without its error phonemes. *)
Theorem X12_errors_keep_layout (phs : list Phoneme) :
  map forget (slots_of phs)
  = map forget (slots_of (filter (fun p => negb (is_error p)) phs)).
Proof.
  unfold slots_of, aligned. rewrite !aligned_outputs.
  cbn [aligner aligner_emit app].
  assert (Hs : forall l : list (option Slot),
             map forget (somes l) = somes (map (option_map forget) l)).
  { induction l as [|[s|] l IHl]; cbn; [reflexivity | f_equal |]; exact IHl. }
  rewrite !Hs. f_equal. apply outputs_without_errors. exact I.
Qed.

Lemma parse_slots_of text : parse text = slots_of (phonemes text).
Proof.
  unfold slots_of. destruct (lexed_shape text) as [Hl _].
  rewrite <- Hl. symmetry. apply parse_aligned.
Qed.

(** ** The [empty] flag *)

Lemma tidy_filled s : empty s = Some false -> content s = true -> tidy s.
Proof. unfold tidy. intros -> ->. reflexivity. Qed.

Lemma tidy_blank a b : tidy (blank a b true).
Proof. reflexivity. Qed.

Lemma tidy_appendError t e : tidy t -> tidy (appendError t e).
Proof. exact id. Qed.

Lemma tidy_spread t c : tidy t -> connector_tidy c -> tidy (spread t c).
Proof.
  intros Ht [-> | [He Hc]].
  - destruct t. exact Ht.
  - apply tidy_filled; [cbn; rewrite He; reflexivity|].
    unfold connector_content in Hc. unfold content. cbn.
    destruct c as [ce [c|] [n|] [s|] [e|] [w|]]; cbn in *;
      rewrite ?orb_true_r; try reflexivity; discriminate.
Qed.

Lemma connector_tidy_nothing : connector_tidy nothing.
Proof. left. reflexivity. Qed.

Lemma connector_tidy_literal c :
  cEmpty c = Some false -> connector_content c = true -> connector_tidy c.
Proof. right. split; assumption. Qed.

Ltac fill :=
  first [ apply tidy_filled;
          [reflexivity
          | unfold content; cbn; rewrite ?orb_true_r; reflexivity]
        | apply connector_tidy_literal; reflexivity ].

Create HintDb tidy.
#[local] Hint Resolve tidy_blank tidy_appendError tidy_spread
  connector_tidy_nothing Forall_cons Forall_nil : tidy.
#[local] Hint Extern 1 (tidy _) => fill : tidy.
#[local] Hint Extern 1 (connector_tidy _) => fill : tidy.

Lemma tidy_feed {E} `{Sink Slot E} (state : Aligner E) phoneme :
  state_tidy state ->
  state_tidy (feed state phoneme)
  /\ Forall tidy (somes (output state phoneme)).
Proof.
  intros Hs. unfold output.
  destruct phoneme as [p|]; [destruct p|];
    destruct state; cbn [state_tidy] in Hs; step_aligner;
    unfold alignerEnd; cbn [state_tidy]; intuition (auto with tidy).
Qed.

Lemma aligned_tidy evs : forall state : Aligner (list (option Slot)),
  state_tidy state ->
  Forall tidy (somes (aligner_emit state)) ->
  Forall tidy (somes (aligner_emit (feed_all state evs))).
Proof.
  induction evs as [|ev evs IH]; intros state Hs Hl; [exact Hl|].
  destruct (tidy_feed state ev Hs) as [Hs' Ho].
  cbn [feed_all fold_left]. apply IH; [exact Hs'|].
  rewrite feed_output, somes_app. apply Forall_app. split; assumption.
Qed.

(** X14.  Every slot the aligner emits has its [empty] flag set, and the
    flag is exact: a slot marked empty has no center and no attachment, and
    a slot not marked empty has a center or an attachment.  So the
    embellisher drops exactly the slots that hold nothing. *)
Theorem X14_empty_flag_is_exact (text : list string) :
  Forall tidy (parse text)
  /\ map slot (filter (fun g => negb (is_empty g)) (map of_slot (parse text)))
     = filter content (parse text).
Proof.
  assert (Ht : Forall tidy (parse text)).
  { rewrite <- parse_aligned. unfold aligned.
    apply aligned_tidy; [apply tidy_blank | constructor]. }
  split; [exact Ht|].
  rewrite filter_of_slot. induction Ht as [|s l Hs _ IH]; [reflexivity|].
  cbn [filter]. unfold occupied at 1. rewrite Hs, negb_involutive, IH.
  reflexivity.
Qed.

(** ** The canvas of the renderer *)

(** X15.  The [width] and [height] that [render] sets hold every glyph of a
    transcribed model: both are 500 at least, and the offset at which a
    glyph is placed is not negative and leaves 500 units to the right and
    below. *)
Theorem X15_canvas_holds_glyphs (text : list string) :
  let model := transcribe text in
  (500 <= fst (actual model) /\ 500 <= snd (actual model))%Z
  /\ Forall (fun g =>
               (0 <= fst (translate g)
                /\ fst (translate g) + 500 <= fst (actual model)
                /\ 0 <= snd (translate g)
                /\ snd (translate g) + 500 <= snd (actual model))%Z)
            (glyphs model).
Proof.
  cbv zeta.
  destruct (measure_extent (glyphs (transcribe text)))
    as [(Hx1 & Hx2 & _) (Hy1 & Hy2 & _)].
  assert (Hsize : size (transcribe text) = measure (glyphs (transcribe text)))
    by reflexivity.
  unfold actual, translate, stride. cbn [fst snd]. rewrite Hsize.
  split; [lia|].
  assert (Hgrid : Forall (fun g => on_grid (slot g)) (glyphs (transcribe text))).
  { assert (Hp : Forall on_grid (parse text)).
    { rewrite <- parse_aligned. unfold aligned.
      apply aligned_on_grid; [cbn; lia | constructor]. }
    unfold transcribe. cbn [glyphs].
    assert (Hk := embelish_keeps cell (fun _ _ _ _ _ _ _ _ _ _ _ => eq_refl)
                    (map of_slot (parse text))).
    apply Forall_forall. intros g Hg.
    apply (in_map (fun n => cell (slot n))) in Hg.
    rewrite Hk in Hg. apply in_map_iff in Hg. destruct Hg as [g' [Heq Hin]].
    destruct (in_of_slot _ _ Hin) as [s [Hs Hg']]. subst g'.
    rewrite Forall_forall in Hp. specialize (Hp s Hs).
    unfold cell in Heq. cbn in Heq. injection Heq as Hx Hy.
    unfold on_grid in *. rewrite <- Hx, <- Hy. exact Hp. }
  rewrite Forall_forall in *. intros g Hg.
  specialize (Hx2 g Hg). specialize (Hy2 g Hg).
  specialize (Hgrid g Hg). unfold on_grid in Hgrid. lia.
Qed.

Lemma X8_white_text_is_blank_witness :
  Forall (fun c => In c white) [" "; TAB; LF; CR]
  /\ transcribe [" "; TAB; LF; CR] = blank_model.
Proof.
  assert (Hw : Forall (fun c => In c white) [" "; TAB; LF; CR]).
  { repeat (apply Forall_cons; [apply in_by_eqb; reflexivity|]).
    apply Forall_nil. }
  split; [exact Hw|].
  apply (@X8_white_text_is_blank [" "; TAB; LF; CR] Hw).
Defined.

(** ** The collector and the parser *)

(** X1.  The collector hands to the callback the slots it was fed before
    the first end marker, and ignores whatever it is fed after it; as long
    as no end marker has come, the result is still the empty list that
    [makeParser] starts with. *)
Theorem X1_collector_first_end (ss : list Slot) (evs : list (option Slot)) :
  feed_all collector0 (map Some ss ++ None :: evs) = mkCollector EofFn ss
  /\ result (feed_all collector0 (map Some ss)) = [].
Proof.
  unfold collector0. split.
  - rewrite feed_all_app, collect_slots. cbn [app feed_all fold_left].
    unfold feed at 2, collector. cbn [continue result].
    induction evs as [|ev evs IH]; [reflexivity|].
    cbn [fold_left]. exact IH.
  - rewrite collect_slots. reflexivity.
Qed.

(** X16.  The three machines are null terminated and compose: on every
    text the lexer emits its phonemes and then the end marker, once; the
    aligner, fed that stream, emits its slots and then the end marker,
    once; and [parse] returns exactly those slots. *)
Theorem X16_parse_is_pipeline (text : list string) :
  lexed text = map Some (phonemes text) ++ [None]
  /\ aligned (lexed text) = map Some (parse text) ++ [None]
  /\ parse text = slots_of (phonemes text).
Proof.
  assert (Hl := proj1 (lexed_shape text)).
  split; [exact Hl|]. split; [apply aligned_shape|].
  unfold slots_of. rewrite <- Hl. symmetry. apply parse_aligned.
Qed.

(** ** Words and vowels on the zig-zag *)

(** X17.  Words begin on the zig: after a space or a line end, the next
    consonant is the center of a hub on a high (even) row, whatever state
    the aligner was in. *)
Theorem X17_words_begin_high {E} `{Sink Slot E}
  (state : Aligner E) (p : Phoneme) (c : string) :
  live state -> placed state -> p = SpacePh \/ p = Newline ->
  exists hub v1 v2 emit,
    feed (feed state (Some p)) (Some (Consonant c)) = AfterHigh hub v1 v2 emit
    /\ center hub = Some c /\ (0 <= y hub /\ y hub mod 2 = 0)%Z.
Proof.
  intros Hl Hp [-> | ->];
    destruct state; try contradiction; cbn [placed] in Hp; step_aligner;
    do 4 eexists; (split; [reflexivity|]); (split; [reflexivity|]);
    slot_fields; parity.
Qed.

Lemma X17_words_begin_high_witness :
  let state := Low (blank 2 1 false) nothing nothing (@nil (option Slot)) in
  live state /\ placed state
  /\ exists hub v1 v2 emit,
      feed (feed state (Some SpacePh)) (Some (Consonant "n"))
      = AfterHigh hub v1 v2 emit
      /\ center hub = Some "n" /\ (0 <= y hub /\ y hub mod 2 = 0)%Z.
Proof.
  split; [exact I|]. split; [cbn; split; [lia | reflexivity]|].
  apply (@X17_words_begin_high _ _
           (Low (blank 2 1 false) nothing nothing (@nil (option Slot)))
           SpacePh "n");
    [exact I | cbn; split; [lia | reflexivity] | left; reflexivity].
Defined.

(** X18.  A vowel between two consonants is attached to both hubs: south
    of a high hub and north of the next, one row down; east of a low hub
    and west of the next, one column on and one row up.  The first hub is
    emitted when the vowel comes, and nothing is emitted when the second
    consonant comes. *)
Theorem X18_vowel_joins_hubs {E} `{Sink Slot E}
  (state : Aligner E) (c1 v c2 : string) :
  live state ->
  let state1 := feed state (Some (Consonant c1)) in
  let state2 := feed state1 (Some (Vowel v)) in
  let state3 := feed state2 (Some (Consonant c2)) in
  exists hub next,
    output state1 (Some (Vowel v)) = [Some hub]
    /\ output state2 (Some (Consonant c2)) = []
    /\ open_slot state3 = Some next
    /\ center hub = Some c1 /\ center next = Some c2
    /\ if is_low state1
       then east hub = Some v /\ west next = Some v
            /\ x next = (x hub + 1)%Z /\ y next = (y hub - 1)%Z
       else south hub = Some v /\ north next = Some v
            /\ x next = x hub /\ y next = (y hub + 1)%Z.
Proof.
  intros Hl. cbv zeta. unfold output.
  destruct state; try contradiction; cbn;
    eexists; eexists; (split; [reflexivity|]); (split; [reflexivity|]);
    (split; [reflexivity|]); cbn; repeat split; reflexivity.
Qed.

Lemma X18_vowel_joins_hubs_witness :
  let state := aligner (@nil (option Slot)) in
  live state
  /\ exists hub next,
      output (feed state (Some (Consonant "m"))) (Some (Vowel "a"))
      = [Some hub]
      /\ output (feed (feed state (Some (Consonant "m"))) (Some (Vowel "a")))
                (Some (Consonant "n")) = []
      /\ open_slot (feed (feed (feed state (Some (Consonant "m")))
                               (Some (Vowel "a")))
                         (Some (Consonant "n"))) = Some next
      /\ center hub = Some "m" /\ center next = Some "n"
      /\ south hub = Some "a" /\ north next = Some "a"
      /\ x next = x hub /\ y next = (y hub + 1)%Z.
Proof.
  split; [exact I|].
  apply (@X18_vowel_joins_hubs _ _ (aligner (@nil (option Slot)))
           "m" "a" "n" I).
Defined.

(** X19.  A diphthong spans two slots, from any of the five states: its
    first half is attached to the open slot, which is emitted, south of it
    from a High state and east of it from a Low state; its second half is
    attached north, or west, of the slot that the aligner opens next, one
    row down, or one column on and one row up. *)
Theorem X19_diphthong_spans_two_slots {E} `{Sink Slot E}
  (state : Aligner E) (term : Slot) (a b : string) :
  open_slot state = Some term ->
  exists hub next,
    output state (Some (Diphthong a b)) = [Some hub]
    /\ open_slot (feed state (Some (Diphthong a b))) = Some next
    /\ cell hub = cell term
    /\ if is_low state
       then east hub = Some a /\ west next = Some b
            /\ x next = (x term + 1)%Z /\ y next = (y term - 1)%Z
       else south hub = Some a /\ north next = Some b
            /\ x next = x term /\ y next = (y term + 1)%Z.
Proof.
  intros Ho. unfold output.
  destruct state; try discriminate; cbn in Ho; injection Ho as <-; cbn;
    eexists; eexists; (split; [reflexivity|]); (split; [reflexivity|]);
    cbn; repeat split; reflexivity.
Qed.

Lemma X19_diphthong_spans_two_slots_witness :
  let state := aligner (@nil (option Slot)) in
  open_slot state = Some (blank 0 0 true)
  /\ exists hub next,
      output state (Some (Diphthong "a" "i")) = [Some hub]
      /\ open_slot (feed state (Some (Diphthong "a" "i"))) = Some next
      /\ cell hub = (0, 0)%Z
      /\ south hub = Some "a" /\ north next = Some "i"
      /\ x next = 0%Z /\ y next = 1%Z.
Proof.
  split; [reflexivity|].
  apply (@X19_diphthong_spans_two_slots _ _ (aligner (@nil (option Slot)))
           (blank 0 0 true) "a" "i" eq_refl).
Defined.

(** X20.  Two vowel or diphthong phonemes in a row, from any of the five
    states: the second one makes the aligner emit a hub whose center is the
    placeholder consonant [m], with the vowel (or first half) of the second
    phoneme south of it (high hub) or east of it (low hub). *)
Theorem X20_placeholder_consonant {E} `{Sink Slot E}
  (state : Aligner E) (p1 p2 : Phoneme) :
  live state -> first_vowel p1 <> None -> first_vowel p2 <> None ->
  let state1 := feed state (Some p1) in
  exists hub,
    output state1 (Some p2) = [Some hub]
    /\ center hub = Some "m" /\ empty hub = Some false
    /\ if is_low state1 then east hub = first_vowel p2
       else south hub = first_vowel p2.
Proof.
  intros Hl H1 H2. cbv zeta. unfold output.
  destruct p1; try (exfalso; apply H1; reflexivity);
    destruct p2; try (exfalso; apply H2; reflexivity);
    destruct state; try contradiction; cbn;
    eexists; (split; [reflexivity|]); cbn; repeat split; reflexivity.
Qed.

Lemma X20_placeholder_consonant_witness :
  let state := aligner (@nil (option Slot)) in
  live state /\ first_vowel (Diphthong "a" "i") <> None
  /\ first_vowel (Vowel "o") <> None
  /\ exists hub,
      output (feed state (Some (Diphthong "a" "i"))) (Some (Vowel "o"))
      = [Some hub]
      /\ center hub = Some "m" /\ empty hub = Some false
      /\ east hub = Some "o".
Proof.
  split; [exact I|]. split; [discriminate|]. split; [discriminate|].
  apply (@X20_placeholder_consonant _ _ (aligner (@nil (option Slot)))
           (Diphthong "a" "i") (Vowel "o") I); discriminate.
Defined.
